(** * VisionSpeak: the word/progress store and its three API routes

    A shallow embedding of [server.ts]: the two tables created by the
    [db.exec] schema script, the three SQL statements the routes prepare,
    and the three Express handlers ([GET /api/words], [POST /api/words],
    [GET /api/stats]).

    Conventions of the model.
    - A table is the list of its rows in rowid order (the order of a table
      scan); rows are only ever appended, as the program has no UPDATE or
      DELETE statement.
    - Rowids are mathematical integers.  The 64-bit ceiling of SQLite rowids
      and the 2^53 ceiling of JavaScript numbers are not modelled.
    - A statement fails on a constraint of the schema or not at all: a
      full disk, a locked file or an I/O error has no counterpart here, so
      nothing below speaks of a request cut short between its two INSERTs
      by such a failure.
    - A clock reading is an instant in milliseconds; [CURRENT_TIMESTAMP] and
      [datetime('now')] render it as 'YYYY-MM-DD HH:MM:SS', i.e. truncated to
      whole seconds.  A rendered timestamp is modelled by its number of
      seconds, whose order is the order of the rendered text.
    - Each prepared statement reads the clock when it runs: the two INSERTs
      of [POST /api/words] are two statements and get two readings.
    - A payload field is a text, [null], or absent; better-sqlite3 binds both
      [null] and [undefined] as SQL NULL. *)

From Stdlib Require Import ZArith List Ascii String Bool Lia.
From Stdlib Require Import Permutation Sorted.
Import ListNotations.
Local Open Scope string_scope.
Local Open Scope list_scope.
Local Open Scope Z_scope.

(** ** Values *)

(** A clock reading, in milliseconds. *)
Definition instant := Z.

(** A DATETIME value as SQLite renders it, in whole seconds. *)
Definition datetime := Z.

(** [CURRENT_TIMESTAMP] and [datetime('now')] at a given clock reading. *)
Definition datetime_now (t : instant) : datetime := t / 1000.

(** A field of the JSON request body, after destructuring [req.body]. *)
Inductive json_field :=
| Absent
| JNull
| JString (s : string).

(** The SQL value a statement parameter is bound to. *)
Definition bind_param (v : json_field) : option string :=
  match v with
  | JString s => Some s
  | JNull | Absent => None
  end.

(** ** Schema *)

Module Words.
(** A row of table [words].  [word] is [TEXT NOT NULL]; the other text
    columns and [created_at] are nullable. *)
Record row := {
  id : Z;
  word : string;
  context_sentence : option string;
  meaning : option string;
  phonetic_us : option string;
  phonetic_uk : option string;
  image_url : option string;
  created_at : option datetime
}.
End Words.

Module Progress.
(** A row of table [progress]. *)
Record row := {
  id : Z;
  word_id : option Z;
  status : option string;
  last_reviewed : option datetime;
  next_review : option datetime
}.
End Progress.

(** The database: both tables and, for each, the counter that
    [AUTOINCREMENT] keeps in [sqlite_sequence]. *)
Record store := {
  words : list Words.row;
  progress : list Progress.row;
  seq_words : Z;
  seq_progress : Z
}.

(** The database right after the schema script ran on a fresh file. *)
Definition empty_store : store :=
  {| words := []; progress := []; seq_words := 0; seq_progress := 0 |}.

(** ** Errors and the statement monad *)

Inductive error :=
| SQLITE_CONSTRAINT_NOTNULL (column : string)
| SQLITE_CONSTRAINT_FOREIGNKEY.

(** A computation over the database that may throw.  The store is threaded
    through a throw as well: no transaction wraps the handlers, so what was
    written before an exception stays written. *)
Definition M (A : Type) : Type := store -> (error + A) * store.

Definition ret {A} (a : A) : M A := fun db => (inr a, db).

Definition throw {A} (e : error) : M A := fun db => (inl e, db).

Definition bind {A B} (m : M A) (k : A -> M B) : M B :=
  fun db =>
    match m db with
    | (inr a, db') => k a db'
    | (inl e, db') => (inl e, db')
    end.

Notation "x <- m ;; k" := (bind m (fun x => k))
  (at level 61, m at next level, right associativity).

(** ** Statements *)

(** Largest rowid of a table, 0 when it is empty. *)
Definition max_rowid {R} (rowid : R -> Z) (rows : list R) : Z :=
  fold_right (fun r m => Z.max (rowid r) m) 0 rows.

(** The rowid [AUTOINCREMENT] picks: one more than the largest rowid the
    table has ever held. *)
Definition next_rowid {R} (rowid : R -> Z) (seq : Z) (rows : list R) : Z :=
  Z.max seq (max_rowid rowid rows) + 1.

(** What [Statement.run] returns. *)
Record run_info := {
  changes : Z;
  lastInsertRowid : Z
}.

(** [INSERT INTO words (word, context_sentence, meaning, phonetic_us,
    phonetic_uk, image_url) VALUES (?, ?, ?, ?, ?, ?)], run at instant [t].
    [id] is assigned by AUTOINCREMENT and [created_at] by its default. *)
Definition insert_word
    (word context_sentence meaning phonetic_us phonetic_uk image_url
       : option string)
    (t : instant) : M run_info :=
  match word with
  | None => throw (SQLITE_CONSTRAINT_NOTNULL "words.word")
  | Some w =>
      fun db =>
        let rowid := next_rowid Words.id (seq_words db) (words db) in
        let r := {| Words.id := rowid;
                    Words.word := w;
                    Words.context_sentence := context_sentence;
                    Words.meaning := meaning;
                    Words.phonetic_us := phonetic_us;
                    Words.phonetic_uk := phonetic_uk;
                    Words.image_url := image_url;
                    Words.created_at := Some (datetime_now t) |} in
        (inr {| changes := 1; lastInsertRowid := rowid |},
         {| words := words db ++ [r];
            progress := progress db;
            seq_words := rowid;
            seq_progress := seq_progress db |})
  end.

(** [FOREIGN KEY(word_id) REFERENCES words(id)]: a non-NULL [word_id] must
    be the id of a row of [words]. *)
Definition references_word (db : store) (word_id : option Z) : bool :=
  match word_id with
  | None => true
  | Some i => existsb (fun w => Words.id w =? i) (words db)
  end.

(** [INSERT INTO progress (word_id, next_review) VALUES (?, datetime('now'))],
    run at instant [t].  [status] takes its default ['new'] and
    [last_reviewed], which has no default, is NULL. *)
Definition insert_progress (word_id : option Z) (t : instant) : M run_info :=
  fun db =>
    if references_word db word_id then
      let rowid := next_rowid Progress.id (seq_progress db) (progress db) in
      let r := {| Progress.id := rowid;
                  Progress.word_id := word_id;
                  Progress.status := Some "new";
                  Progress.last_reviewed := None;
                  Progress.next_review := Some (datetime_now t) |} in
      (inr {| changes := 1; lastInsertRowid := rowid |},
       {| words := words db;
          progress := progress db ++ [r];
          seq_words := seq_words db;
          seq_progress := rowid |})
    else throw SQLITE_CONSTRAINT_FOREIGNKEY db.

(** Order of DATETIME values, NULL below every value. *)
Definition datetime_leb (a b : option datetime) : bool :=
  match a, b with
  | None, _ => true
  | Some _, None => false
  | Some x, Some y => x <=? y
  end.

(** Place [r] in a list sorted by [created_at] descending, ahead of the rows
    that are not newer than it. *)
Fixpoint insert_desc (r : Words.row) (l : list Words.row) : list Words.row :=
  match l with
  | [] => [r]
  | x :: l' =>
      if datetime_leb (Words.created_at x) (Words.created_at r)
      then r :: x :: l'
      else x :: insert_desc r l'
  end.

(** [ORDER BY created_at DESC] over a scan: rows with equal keys keep the
    order of the scan, as SQLite's sorter leaves them. *)
Fixpoint order_by_created_at_desc (rows : list Words.row) : list Words.row :=
  match rows with
  | [] => []
  | r :: rows' => insert_desc r (order_by_created_at_desc rows')
  end.

(** [SELECT * FROM words ORDER BY created_at DESC], [.all()]. *)
Definition select_words : M (list Words.row) :=
  fun db => ret (order_by_created_at_desc (words db)) db.

(** [SELECT COUNT( * ) as count FROM words], [.get()]. *)
Definition select_count : M Z :=
  fun db => ret (Z.of_nat (List.length (words db))) db.

(** ** Routes *)

(** The body of [POST /api/words], destructured. *)
Module Body.
Record t := {
  word : json_field;
  context_sentence : json_field;
  meaning : json_field;
  phonetic_us : json_field;
  phonetic_uk : json_field;
  image_url : json_field
}.
End Body.

(** What a route answers: the JSON it sends, or the exception that escapes
    the handler, which Express turns into a 500. *)
Inductive response :=
| WordsJson (rows : list Words.row)
| IdJson (id : Z)
| StatsJson (totalWords : Z)
| ServerError (e : error).

Definition respond {A} (m : M A) (json : A -> response) : store -> response * store :=
  fun db =>
    match m db with
    | (inr a, db') => (json a, db')
    | (inl e, db') => (ServerError e, db')
    end.

(** [app.get("/api/words", ...)]. *)
Definition get_words : store -> response * store :=
  respond select_words WordsJson.

(** The statements of [app.post("/api/words", ...)]: the word INSERT runs at
    [t_word], the progress INSERT at [t_progress]. *)
Definition post_words_stmts (b : Body.t) (t_word t_progress : instant) : M Z :=
  info <- insert_word (bind_param (Body.word b))
                      (bind_param (Body.context_sentence b))
                      (bind_param (Body.meaning b))
                      (bind_param (Body.phonetic_us b))
                      (bind_param (Body.phonetic_uk b))
                      (bind_param (Body.image_url b))
                      t_word ;;
  _ <- insert_progress (Some (lastInsertRowid info)) t_progress ;;
  ret (lastInsertRowid info).

(** [app.post("/api/words", ...)]. *)
Definition post_words (b : Body.t) (t_word t_progress : instant)
  : store -> response * store :=
  respond (post_words_stmts b t_word t_progress) IdJson.

(** [app.get("/api/stats", ...)]. *)
Definition get_stats : store -> response * store :=
  respond select_count StatsJson.

(** ** The client's save *)

(** [WordRecord] of the client, as [saveWord] reads it: the analysed word
    and the optional anchor image. *)
Module WordRecord.
Record t := {
  word : string;
  meaning : string;
  context_explanation : string;
  phonetic_us : string;
  phonetic_uk : string;
  image_url : option string
}.
End WordRecord.

(** The body [saveWord] posts; [JSON.stringify] drops an undefined
    [image_url]. *)
Definition saveWord_body (w : WordRecord.t) : Body.t :=
  {| Body.word := JString (WordRecord.word w);
     Body.context_sentence := JString (WordRecord.context_explanation w);
     Body.meaning := JString (WordRecord.meaning w);
     Body.phonetic_us := JString (WordRecord.phonetic_us w);
     Body.phonetic_uk := JString (WordRecord.phonetic_uk w);
     Body.image_url :=
       match WordRecord.image_url w with
       | Some u => JString u
       | None => Absent
       end |}.

(** ** Sequences of requests *)

(** One [POST /api/words] request: its body and the clock readings of its
    two statements. *)
Record request := {
  body : Body.t;
  t_word : instant;
  t_progress : instant
}.

Definition create_word (r : request) : store -> response * store :=
  post_words (body r) (t_word r) (t_progress r).

(** Serve the requests one after the other. *)
Fixpoint run (rs : list request) (db : store) : list response * store :=
  match rs with
  | [] => ([], db)
  | r :: rs' =>
      let (resp, db1) := create_word r db in
      let (resps, db2) := run rs' db1 in
      (resp :: resps, db2)
  end.

(** The identifiers handed out by a sequence of answers. *)
Definition assigned_ids (resps : list response) : list Z :=
  flat_map (fun r => match r with IdJson i => [i] | _ => [] end) resps.

(** Both statements of the request run within one clock second. *)
Definition same_second (r : request) : Prop :=
  datetime_now (t_word r) = datetime_now (t_progress r).

(** The progress rows that reference word [i]. *)
Definition progress_of (db : store) (i : Z) : list Progress.row :=
  filter (fun p => match Progress.word_id p with
                   | Some j => j =? i
                   | None => false
                   end) (progress db).

(** ** Racing requests *)

(** Where a [POST /api/words] handler stands: body received, word row
    written, or answer sent. *)
Inductive handler :=
| Received (b : Body.t)
| WordInserted (info : run_info)
| Responded (r : response).

(** The next statement of a handler, run at instant [t]. *)
Definition handler_step (t : instant) (h : handler) (db : store)
  : handler * store :=
  match h with
  | Received b =>
      match insert_word (bind_param (Body.word b))
                        (bind_param (Body.context_sentence b))
                        (bind_param (Body.meaning b))
                        (bind_param (Body.phonetic_us b))
                        (bind_param (Body.phonetic_uk b))
                        (bind_param (Body.image_url b)) t db with
      | (inr info, db') => (WordInserted info, db')
      | (inl e, db') => (Responded (ServerError e), db')
      end
  | WordInserted info =>
      match insert_progress (Some (lastInsertRowid info)) t db with
      | (inr _, db') => (Responded (IdJson (lastInsertRowid info)), db')
      | (inl e, db') => (Responded (ServerError e), db')
      end
  | Responded r => (Responded r, db)
  end.

(** Which of two racing handlers the store serves next. *)
Inductive turn := First | Second.

(** Two handlers sharing the store, their statements interleaved as the
    schedule says; each entry carries the clock reading of its statement. *)
Fixpoint race (sched : list (turn * instant)) (h1 h2 : handler) (db : store)
  : handler * handler * store :=
  match sched with
  | [] => (h1, h2, db)
  | (First, t) :: sched' =>
      let (h1', db') := handler_step t h1 db in race sched' h1' h2 db'
  | (Second, t) :: sched' =>
      let (h2', db') := handler_step t h2 db in race sched' h1 h2' db'
  end.

(** How many statements of a schedule belong to the first, and to the
    second, handler. *)
Definition turns_of_first (sched : list (turn * instant)) : nat :=
  List.length (filter (fun e => match fst e with First => true | Second => false end) sched).

Definition turns_of_second (sched : list (turn * instant)) : nat :=
  List.length (filter (fun e => match fst e with First => false | Second => true end) sched).

(** Statements a handler still has to run before it has answered. *)
Definition pending (h : handler) : nat :=
  match h with
  | Received _ => 2%nat
  | WordInserted _ => 1%nat
  | Responded _ => 0%nat
  end.

(** ** Vocabulary of the statements *)

(** The word row a body with surface text [s] yields when it is given
    rowid [i] at instant [t]: the body's fields, plus [id] and
    [created_at]. *)
Definition word_row (b : Body.t) (s : string) (i : Z) (t : instant)
  : Words.row :=
  {| Words.id := i;
     Words.word := s;
     Words.context_sentence := bind_param (Body.context_sentence b);
     Words.meaning := bind_param (Body.meaning b);
     Words.phonetic_us := bind_param (Body.phonetic_us b);
     Words.phonetic_uk := bind_param (Body.phonetic_uk b);
     Words.image_url := bind_param (Body.image_url b);
     Words.created_at := Some (datetime_now t) |}.

(** The progress row written for word [i] with rowid [k] at instant [t]. *)
Definition progress_row (k i : Z) (t : instant) : Progress.row :=
  {| Progress.id := k;
     Progress.word_id := Some i;
     Progress.status := Some "new";
     Progress.last_reviewed := None;
     Progress.next_review := Some (datetime_now t) |}.

(** [a] is strictly older than [b]. *)
Definition datetime_ltb (a b : option datetime) : bool :=
  negb (datetime_leb b a).

(** A sequence of word rows is in [created_at] descending order. *)
Definition newest_first (rows : list Words.row) : Prop :=
  StronglySorted
    (fun a b => datetime_leb (Words.created_at b) (Words.created_at a) = true)
    rows.

(** What SQL promises of [SELECT * FROM words ORDER BY created_at DESC]:
    the rows of the table, newest first, ties in any order. *)
Definition is_listing (db : store) (rows : list Words.row) : Prop :=
  Permutation rows (words db) /\ newest_first rows.

(** The request answered with an identifier. *)
Definition succeeded (r : response) : bool :=
  match r with
  | IdJson _ => true
  | _ => false
  end.

(** ** Sample data *)

(** A body that carries a surface text and nothing else. *)
Definition text_body (s : string) : Body.t :=
  {| Body.word := JString s;
     Body.context_sentence := Absent;
     Body.meaning := Absent;
     Body.phonetic_us := Absent;
     Body.phonetic_uk := Absent;
     Body.image_url := Absent |}.

(** The store after "alpha" was saved during second 1. *)
Definition alpha_store : store :=
  snd (post_words (text_body "alpha") 1000 1000 empty_store).

(** ** Invariants of the store *)

(** Word [w] has exactly one progress row, which is new and has a next
    review; with [exact], the next review is at the word's [created_at]. *)
Definition word_tracked (exact : bool) (db : store) (w : Words.row) : Prop :=
  exists p,
    progress_of db (Words.id w) = [p] /\
    Progress.status p = Some "new" /\
    Progress.next_review p <> None /\
    (exact = true -> Progress.next_review p = Words.created_at w).

(** Every progress row references a stored word. *)
Definition progress_owned (db : store) : Prop :=
  forall p, In p (progress db) ->
    exists w, In w (words db) /\ Progress.word_id p = Some (Words.id w).

Definition tracked (exact : bool) (db : store) : Prop :=
  progress_owned db /\ forall w, In w (words db) -> word_tracked exact db w.


(** "alpha" saved well within second 1. *)
Definition alpha_request : request :=
  {| body := text_body "alpha"; t_word := 1000; t_progress := 1000 |}.

(** A body whose surface text is absent. *)
Definition no_word_body : Body.t :=
  {| Body.word := Absent;
     Body.context_sentence := Absent;
     Body.meaning := JString "present everywhere";
     Body.phonetic_us := Absent;
     Body.phonetic_uk := Absent;
     Body.image_url := Absent |}.

(** The scenario of the specification, its phonetics in ASCII. *)
Definition ubiquitous_body : Body.t :=
  {| Body.word := JString "ubiquitous";
     Body.context_sentence := Absent;
     Body.meaning := JString "present everywhere";
     Body.phonetic_us := JString "/ju:'bIkwIt@s/";
     Body.phonetic_uk := Absent;
     Body.image_url := Absent |}.

(** ** Invariants of a race *)

(** The identifier a handler has obtained from its word INSERT. *)
Definition held_id (h : handler) : option Z :=
  match h with
  | Received _ => None
  | WordInserted info => Some (lastInsertRowid info)
  | Responded (IdJson i) => Some i
  | Responded _ => None
  end.

(** A handler for body [b], with surface text [s], is on track in [db]: it
    has not started, or the row it wrote is in the table under the
    identifier it holds. *)
Definition serving (b : Body.t) (s : string) (h : handler) (db : store)
  : Prop :=
  match h with
  | Received b' => b' = b
  | WordInserted info =>
      exists t, In (word_row b s (lastInsertRowid info) t) (words db)
  | Responded (IdJson i) => exists t, In (word_row b s i t) (words db)
  | Responded _ => False
  end.

(** Two handlers hold different identifiers. *)
Definition apart (h1 h2 : handler) : Prop :=
  forall i j, held_id h1 = Some i -> held_id h2 = Some j -> i <> j.

(** A schedule in which the second request overtakes the first. *)
Definition overtaking : list (turn * instant) :=
  [(First, 1000); (Second, 1000); (Second, 1001); (First, 1002)].

(** ** Further vocabulary of the store *)

(** The identifiers 1, 2, ..., n. *)
Definition ids_upto (n : nat) : list Z := map Z.of_nat (seq 1 n).

(** The request carries a text for surface text. *)
Definition has_text (r : request) : bool :=
  match bind_param (Body.word (body r)) with
  | Some _ => true
  | None => false
  end.

(** Row [a] is listed ahead of row [b]: it is newer, or as old and of a
    smaller identifier. *)
Definition listed_before (a b : Words.row) : Prop :=
  datetime_ltb (Words.created_at b) (Words.created_at a) = true \/
  (Words.created_at a = Words.created_at b /\ Words.id a < Words.id b).

(** The clock does not go back between the two statements of a request. *)
Definition clock_forward (r : request) : Prop := t_word r <= t_progress r.

(** The next review of every progress row of every word is not earlier
    than the word's creation. *)
Definition due_after_creation (db : store) : Prop :=
  forall w p, In w (words db) -> In p (progress_of db (Words.id w)) ->
    exists c n, Words.created_at w = Some c /\
                Progress.next_review p = Some n /\ c <= n.

(** Words and progress rows of a store that has served [n] successful
    requests since it was created: both tables number their rows 1 to [n],
    and progress row [k] belongs to word [k]. *)
Definition in_lockstep (n : nat) (db : store) : Prop :=
  map Words.id (words db) = ids_upto n /\
  map Progress.id (progress db) = ids_upto n /\
  map Progress.word_id (progress db) = map Some (ids_upto n) /\
  seq_words db = Z.of_nat n /\
  seq_progress db = Z.of_nat n.

(** The identifier whose progress row a handler has yet to write. *)
Definition in_flight (h : handler) : list Z :=
  match h with
  | WordInserted info => [lastInsertRowid info]
  | _ => []
  end.

(** While two handlers race, every word has its one progress row, except
    the words in flight, which have none yet. *)
Definition paired_but (h1 h2 : handler) (db : store) : Prop :=
  progress_owned db /\
  forall w, In w (words db) ->
    (In (Words.id w) (in_flight h1 ++ in_flight h2) ->
     progress_of db (Words.id w) = []) /\
    (~ In (Words.id w) (in_flight h1 ++ in_flight h2) ->
     word_tracked false db w).

(** "Recommended for Review": [history.slice(0, 3)] of the listing. *)
Definition recommended (history : list Words.row) : list Words.row :=
  firstn 3 history.

(** A progress row as the program writes it: new, never reviewed, due. *)
Definition untouched (p : Progress.row) : Prop :=
  Progress.status p = Some "new" /\
  Progress.last_reviewed p = None /\
  Progress.next_review p <> None.

(** "alpha", then "beta" a second later, then "gamma" another second
    later. *)
Definition three_requests : list request :=
  [ {| body := text_body "alpha"; t_word := 1000; t_progress := 1001 |};
    {| body := text_body "beta"; t_word := 2000; t_progress := 2002 |};
    {| body := text_body "gamma"; t_word := 3000; t_progress := 3999 |} ].

(** ** The WAV container of [playAudio] *)

(** The bytes of an [ArrayBuffer], as a [DataView] or a [Uint8Array] sees
    them. *)
Definition buffer := list Z.

(** [new ArrayBuffer(n)]: [n] zero bytes. *)
Definition new_ArrayBuffer (n : nat) : buffer := repeat 0 n.

(** Overwrite the byte at index [i]. *)
Fixpoint store_byte (view : buffer) (i : nat) (v : Z) : buffer :=
  match view, i with
  | [], _ => []
  | _ :: rest, O => v :: rest
  | x :: rest, S i' => x :: store_byte rest i' v
  end.

(** Does a field of [size] bytes at [byteOffset] lie within the view? *)
Definition in_view (byteOffset size : Z) (view : buffer) : bool :=
  (0 <=? byteOffset) && (byteOffset + size <=? Z.of_nat (List.length view)).

(** Byte [k] of an unsigned integer, least significant first. *)
Definition byte_at (k : nat) (u : Z) : Z := (u / 256 ^ Z.of_nat k) mod 256.

(** [view.setUint8(byteOffset, value)]: stores the value modulo 2^8; a
    [RangeError], here [None], outside the view. *)
Definition setUint8 (byteOffset value : Z) (view : buffer) : option buffer :=
  if in_view byteOffset 1 view
  then Some (store_byte view (Z.to_nat byteOffset) (byte_at 0 (value mod 2 ^ 8)))
  else None.

(** [view.setUint16(byteOffset, value, true)]: the value modulo 2^16,
    little-endian. *)
Definition setUint16 (byteOffset value : Z) (view : buffer) : option buffer :=
  if in_view byteOffset 2 view
  then
    let u := value mod 2 ^ 16 in
    let i := Z.to_nat byteOffset in
    Some (store_byte (store_byte view i (byte_at 0 u)) (S i) (byte_at 1 u))
  else None.

(** [view.setUint32(byteOffset, value, true)]: the value modulo 2^32,
    little-endian. *)
Definition setUint32 (byteOffset value : Z) (view : buffer) : option buffer :=
  if in_view byteOffset 4 view
  then
    let u := value mod 2 ^ 32 in
    let i := Z.to_nat byteOffset in
    Some (store_byte
            (store_byte
               (store_byte (store_byte view i (byte_at 0 u))
                           (S i) (byte_at 1 u))
               (S (S i)) (byte_at 2 u))
            (S (S (S i))) (byte_at 3 u))
  else None.

(** [string.charCodeAt(i)] of the first character. *)
Definition charCode (c : Ascii.ascii) : Z := Z.of_N (Ascii.N_of_ascii c).

(** [writeString(offset, string)]: one [setUint8] per character, from
    [offset] on. *)
Fixpoint writeString (offset : Z) (s : string) (view : buffer)
  : option buffer :=
  match s with
  | EmptyString => Some view
  | String c s' =>
      match setUint8 offset (charCode c) view with
      | Some view' => writeString (offset + 1) s' view'
      | None => None
      end
  end.

Notation "m >>= f" := (match m with Some x => f x | None => None end)
  (at level 50, left associativity, only parsing).

(** The 44-byte header [playAudio] puts in front of [pcm_length] bytes of
    raw PCM (24 kHz, 16-bit, mono). *)
Definition wav_header (pcm_length : Z) : option buffer :=
  let sampleRate := 24000 in
  let numChannels := 1 in
  let bitsPerSample := 16 in
  Some (new_ArrayBuffer 44)
  >>= writeString 0 "RIFF"
  >>= setUint32 4 (36 + pcm_length)
  >>= writeString 8 "WAVE"
  >>= writeString 12 "fmt "
  >>= setUint32 16 16
  >>= setUint16 20 1
  >>= setUint16 22 numChannels
  >>= setUint32 24 sampleRate
  >>= setUint32 28 (sampleRate * numChannels * bitsPerSample / 8)
  >>= setUint16 32 (numChannels * bitsPerSample / 8)
  >>= setUint16 34 bitsPerSample
  >>= writeString 36 "data"
  >>= setUint32 40 pcm_length.

(** [new Blob([header, pcmData])]: the bytes of the header, then those of
    the samples. *)
Definition wav_blob (pcmData : buffer) : option buffer :=
  match wav_header (Z.of_nat (List.length pcmData)) with
  | Some header => Some (header ++ pcmData)
  | None => None
  end.

(** *** Reading a WAV file back *)

(** [getUint16] and [getUint32], little-endian; [None] outside the view. *)
Definition getUint16 (byteOffset : Z) (view : buffer) : option Z :=
  if in_view byteOffset 2 view
  then
    let i := Z.to_nat byteOffset in
    Some (nth i view 0 + 2 ^ 8 * nth (S i) view 0)
  else None.

Definition getUint32 (byteOffset : Z) (view : buffer) : option Z :=
  if in_view byteOffset 4 view
  then
    let i := Z.to_nat byteOffset in
    Some (nth i view 0 + 2 ^ 8 * nth (S i) view 0 +
          2 ^ 16 * nth (S (S i)) view 0 + 2 ^ 24 * nth (S (S (S i))) view 0)
  else None.

(** The four characters of a chunk tag. *)
Definition getTag (byteOffset : Z) (view : buffer) : option string :=
  if in_view byteOffset 4 view
  then
    let i := Z.to_nat byteOffset in
    let chr k := Ascii.ascii_of_N (Z.to_N (nth (i + k) view 0)) in
    Some (String (chr 0%nat) (String (chr 1%nat) (String (chr 2%nat)
           (String (chr 3%nat) EmptyString))))
  else None.

(** The fields of the canonical 44-byte header of a PCM WAV file. *)
Record wav_fields := {
  riff_tag : string;
  riff_size : Z;
  wave_tag : string;
  fmt_tag : string;
  fmt_size : Z;
  audio_format : Z;
  channels : Z;
  sample_rate : Z;
  byte_rate : Z;
  block_align : Z;
  bits_per_sample : Z;
  data_tag : string;
  data_size : Z
}.

(** Read the header fields of a file, and the bytes that follow them. *)
Definition read_wav (file : buffer) : option (wav_fields * buffer) :=
  getTag 0 file >>= fun riff =>
  getUint32 4 file >>= fun rsize =>
  getTag 8 file >>= fun wave =>
  getTag 12 file >>= fun fmt =>
  getUint32 16 file >>= fun fsize =>
  getUint16 20 file >>= fun format =>
  getUint16 22 file >>= fun ch =>
  getUint32 24 file >>= fun rate =>
  getUint32 28 file >>= fun brate =>
  getUint16 32 file >>= fun align =>
  getUint16 34 file >>= fun bits =>
  getTag 36 file >>= fun dtag =>
  getUint32 40 file >>= fun dsize =>
  Some ({| riff_tag := riff; riff_size := rsize; wave_tag := wave;
           fmt_tag := fmt; fmt_size := fsize; audio_format := format;
           channels := ch; sample_rate := rate; byte_rate := brate;
           block_align := align; bits_per_sample := bits;
           data_tag := dtag; data_size := dsize |},
        skipn 44 file).

(** ** The subtitle player *)

(** A subtitle segment, as [processVideoUrl] returns it. *)
Module Subtitle.
Record t := {
  time : string;
  text : string;
  translation : string
}.
End Subtitle.

Section VideoProgress.

(** JavaScript numbers and their [<=] are taken as given, and so is
    [timeToSeconds], which reads "m:s" through [Number] and floating-point
    arithmetic. *)
Variable number : Type.
Variable number_le : number -> number -> bool.
Variable timeToSeconds : string -> number.

(** The segment has started at [currentTime]. *)
Definition started (currentTime : number) (sub : Subtitle.t) : bool :=
  number_le (timeToSeconds (Subtitle.time sub)) currentTime.

(** The loop of [handleProgress], from index [i] on: the index of the
    segment before the first one that has not started. *)
Fixpoint best_index (subs : list Subtitle.t) (i bestIndex : Z)
    (currentTime : number) : Z :=
  match subs with
  | [] => bestIndex
  | sub :: rest =>
      if started currentTime sub
      then best_index rest (i + 1) i currentTime
      else bestIndex
  end.

(** [handleProgress]: the value of [currentSubIndex] after the player
    reported [playedSeconds]. *)
Definition handleProgress (videoSubtitles : list Subtitle.t)
    (currentSubIndex : Z) (playedSeconds : number) : Z :=
  match videoSubtitles with
  | [] => currentSubIndex
  | _ :: _ =>
      let bestIndex := best_index videoSubtitles 0 0 playedSeconds in
      if bestIndex =? currentSubIndex then currentSubIndex else bestIndex
  end.

End VideoProgress.

(** The "previous" button:
    [(currentSubIndex - 1 + videoSubtitles.length) % videoSubtitles.length],
    with the remainder of JavaScript, which takes the sign of the
    dividend. *)
Definition previous_index (currentSubIndex length : Z) : Z :=
  Z.rem (currentSubIndex - 1 + length) length.

(** The "next" button:
    [(currentSubIndex + 1) % videoSubtitles.length]. *)
Definition next_index (currentSubIndex length : Z) : Z :=
  Z.rem (currentSubIndex + 1) length.

(** The segments [handleVideoProcess] falls back to when the analysis
    fails: at 5, 12 and 20 seconds. *)
Definition lesson : list Subtitle.t :=
  [ {| Subtitle.time := "00:05";
       Subtitle.text := "Welcome to this English lesson.";
       Subtitle.translation := "欢迎来到这堂英语课。" |};
    {| Subtitle.time := "00:12";
       Subtitle.text := "Today we are going to talk about idioms.";
       Subtitle.translation := "今天我们要讨论一些习语。" |};
    {| Subtitle.time := "00:20";
       Subtitle.text := "It's a piece of cake, really.";
       Subtitle.translation := "这真的很简单，小菜一碟。" |} ].

(** Seconds of the three times above, 0 for any other text. *)
Definition lesson_seconds (timeStr : string) : Z :=
  if String.eqb timeStr "00:05" then 5
  else if String.eqb timeStr "00:12" then 12
  else if String.eqb timeStr "00:20" then 20
  else 0.

(** ** Texts *)

(** A text is a sequence of bytes, those of its UTF-8 form: the ASCII
    characters the program looks for (space, comma, the four punctuation
    marks) occur in it only as themselves. *)

(** [text.split(sep)] for a separator of one character: the stretches
    between separators, an empty text giving one empty stretch. *)
Fixpoint split (sep : Ascii.ascii) (text : string) : list string :=
  match text with
  | EmptyString => [EmptyString]
  | String c text' =>
      if Ascii.eqb c sep then EmptyString :: split sep text'
      else match split sep text' with
           | [] => [String c EmptyString]
           | w :: ws => String c w :: ws
           end
  end.

(** The class [[.,!?]] of the regular expression in the word click
    handler. *)
Definition is_mark (c : Ascii.ascii) : bool :=
  Ascii.eqb c "."%char || Ascii.eqb c ","%char ||
  Ascii.eqb c "!"%char || Ascii.eqb c "?"%char.

(** [word.replace(/[.,!?]/g, '')]. *)
Fixpoint cleanWord (word : string) : string :=
  match word with
  | EmptyString => EmptyString
  | String c word' =>
      if is_mark c then cleanWord word' else String c (cleanWord word')
  end.

(** The clickable words of a subtitle: [text.split(' ')]. *)
Definition subtitle_words (text : string) : list string :=
  split " "%char text.

(** [base64Image.split(",")[1] || base64Image] of [analyzeImageContext]:
    the empty text is falsy. *)
Definition inline_image_data (base64Image : string) : string :=
  match nth_error (split ","%char base64Image) 1 with
  | Some part => if String.eqb part "" then base64Image else part
  | None => base64Image
  end.

(** The characters of a text. *)
Definition chars (s : string) : list Ascii.ascii := list_ascii_of_string s.

(** ** The answer of the image service *)

Module Part.
(** [inlineData] of a part: its [data] may be missing. *)
Record blob := {
  data : option string
}.
(** A part of the answer: it carries inline data or not. *)
Record t := {
  inlineData : option blob
}.
End Part.

(** The loop of [generateVisualAnchor] over the parts: a data URL of the
    first part that carries inline data; a missing [data] is spliced into
    the template as "undefined". *)
Fixpoint first_inline_image (parts : list Part.t) : string :=
  match parts with
  | [] => ""
  | part :: rest =>
      match Part.inlineData part with
      | Some b =>
          String.append "data:image/png;base64,"
            (match Part.data b with
             | Some d => d
             | None => "undefined"
             end)
      | None => first_inline_image rest
      end
  end.

(** [generateVisualAnchor], given [response.candidates?.[0]?.content?.parts]
    of the answer. *)
Definition generateVisualAnchor (parts : option (list Part.t)) : string :=
  first_inline_image (match parts with Some ps => ps | None => [] end).

(** ** The video tab *)

(** The two pieces of state the subtitle overlay reads. *)
Record video_tab := {
  videoSubtitles : list Subtitle.t;
  currentSubIndex : Z
}.

(** The tab when the application starts. *)
Definition initial_video_tab : video_tab :=
  {| videoSubtitles := []; currentSubIndex := 0 |}.

(** The index is that of a segment. *)
Definition shows_a_segment (st : video_tab) : Prop :=
  0 <= currentSubIndex st < Z.of_nat (List.length (videoSubtitles st)).

Section VideoTab.

Variable number : Type.
Variable number_le : number -> number -> bool.
Variable timeToSeconds : string -> number.

(** What can happen to the tab. *)
Inductive video_event :=
| AnalysisStarted
| AnalysisSucceeded (subs : list Subtitle.t)
| AnalysisFailed
| Closed
| Played (playedSeconds : number)
| PreviousClicked
| NextClicked
| SegmentClicked (idx : nat).

(** The state after an event.  [handleVideoProcess] empties the list when
    it starts, installs the answer and index 0 when the analysis
    succeeds, and installs the fallback segments, leaving the index alone,
    when it fails.  The close button empties the list.  The player reports
    progress to [handleProgress].  The previous and next buttons and the
    transcript entries exist only for the segments of a list that is not
    empty. *)
Definition video_step (st : video_tab) (e : video_event) : video_tab :=
  let subs := videoSubtitles st in
  let idx := currentSubIndex st in
  let len := Z.of_nat (List.length subs) in
  match e with
  | AnalysisStarted => {| videoSubtitles := []; currentSubIndex := idx |}
  | AnalysisSucceeded answer =>
      {| videoSubtitles := answer; currentSubIndex := 0 |}
  | AnalysisFailed => {| videoSubtitles := lesson; currentSubIndex := idx |}
  | Closed => {| videoSubtitles := []; currentSubIndex := idx |}
  | Played playedSeconds =>
      {| videoSubtitles := subs;
         currentSubIndex :=
           handleProgress number number_le timeToSeconds subs idx
                          playedSeconds |}
  | PreviousClicked =>
      match subs with
      | [] => st
      | _ :: _ =>
          {| videoSubtitles := subs; currentSubIndex := previous_index idx len |}
      end
  | NextClicked =>
      match subs with
      | [] => st
      | _ :: _ =>
          {| videoSubtitles := subs; currentSubIndex := next_index idx len |}
      end
  | SegmentClicked i =>
      if (i <? List.length subs)%nat
      then {| videoSubtitles := subs; currentSubIndex := Z.of_nat i |}
      else st
  end.

(** The state after a sequence of events. *)
Definition video_run (st : video_tab) (events : list video_event) : video_tab :=
  fold_left video_step events st.

(** The event is not a failed analysis. *)
Definition not_a_failure (e : video_event) : Prop :=
  match e with
  | AnalysisFailed => False
  | _ => True
  end.

End VideoTab.




(** ** The review tab *)

Section ReviewTab.

(** [word[0].toUpperCase()] of a word that is not empty: taken as given. *)
Variable upper_initial : string -> string.

(** The badge of a recommended word, [item.word[0].toUpperCase()]: the
    empty word has no first character, and the call on [undefined] throws
    a [TypeError], here [None]. *)
Definition badge (word : string) : option string :=
  match word with
  | EmptyString => None
  | String _ _ => Some (upper_initial word)
  end.

(** The entries of a list of words, each with its badge and its word; one
    throw and nothing is rendered. *)
Fixpoint render_entries (items : list Words.row)
  : option (list (string * string)) :=
  match items with
  | [] => Some []
  | item :: rest =>
      match badge (Words.word item) with
      | None => None
      | Some b =>
          match render_entries rest with
          | None => None
          | Some entries => Some ((b, Words.word item) :: entries)
          end
      end
  end.

(** "Recommended for Review" as the review tab renders it:
    [history.slice(0, 3).map(...)]. *)
Definition render_recommended (history : list Words.row)
  : option (list (string * string)) :=
  render_entries (recommended history).

End ReviewTab.

(** The store after the empty word was saved on top of the three. *)
Definition store_with_empty_word : store :=
  snd (post_words (text_body "") 4000 4000
         (snd (run three_requests empty_store))).

(** * Properties *)

(** The row just appended is in the table. *)
Ltac in_last := apply in_or_app; right; left; reflexivity.

(** ** Rowids *)

Lemma max_rowid_ge {R} (rowid : R -> Z) (rows : list R) (r : R) :
  In r rows -> rowid r <= max_rowid rowid rows.
Proof.
  induction rows as [|x rows IH]; simpl; [tauto|].
  intros [->|Hin]; [lia|]. specialize (IH Hin). lia.
Qed.

Lemma next_rowid_fresh {R} (rowid : R -> Z) (seq : Z) (rows : list R) (r : R) :
  In r rows -> rowid r < next_rowid rowid seq rows.
Proof.
  intros Hin. apply (max_rowid_ge rowid) in Hin. unfold next_rowid. lia.
Qed.

Lemma next_rowid_above_seq {R} (rowid : R -> Z) (seq : Z) (rows : list R) :
  seq < next_rowid rowid seq rows.
Proof. unfold next_rowid. lia. Qed.

(** ** The two INSERTs *)

Lemma insert_word_some w c m us uk img t db :
  insert_word (Some w) c m us uk img t db =
  (inr {| changes := 1;
          lastInsertRowid := next_rowid Words.id (seq_words db) (words db) |},
   {| words := words db ++
        [{| Words.id := next_rowid Words.id (seq_words db) (words db);
            Words.word := w;
            Words.context_sentence := c;
            Words.meaning := m;
            Words.phonetic_us := us;
            Words.phonetic_uk := uk;
            Words.image_url := img;
            Words.created_at := Some (datetime_now t) |}];
      progress := progress db;
      seq_words := next_rowid Words.id (seq_words db) (words db);
      seq_progress := seq_progress db |}).
Proof. reflexivity. Qed.

Lemma references_word_In db i :
  references_word db (Some i) = true <->
  exists w, In w (words db) /\ Words.id w = i.
Proof.
  unfold references_word. rewrite existsb_exists.
  split; intros (w & Hin & Hw); exists w; split; auto; lia.
Qed.

Lemma insert_progress_ok db i t :
  (exists w, In w (words db) /\ Words.id w = i) ->
  insert_progress (Some i) t db =
  (inr {| changes := 1;
          lastInsertRowid :=
            next_rowid Progress.id (seq_progress db) (progress db) |},
   {| words := words db;
      progress := progress db ++
        [progress_row (next_rowid Progress.id (seq_progress db) (progress db))
                      i t];
      seq_words := seq_words db;
      seq_progress := next_rowid Progress.id (seq_progress db) (progress db) |}).
Proof.
  intros H. apply references_word_In in H.
  unfold insert_progress. rewrite H. reflexivity.
Qed.

(** What [POST /api/words] does with a text for surface text. *)
Lemma post_words_ok b s t1 t2 db :
  Body.word b = JString s ->
  post_words b t1 t2 db =
  (IdJson (next_rowid Words.id (seq_words db) (words db)),
   {| words := words db ++
        [word_row b s (next_rowid Words.id (seq_words db) (words db)) t1];
      progress := progress db ++
        [progress_row (next_rowid Progress.id (seq_progress db) (progress db))
                      (next_rowid Words.id (seq_words db) (words db)) t2];
      seq_words := next_rowid Words.id (seq_words db) (words db);
      seq_progress := next_rowid Progress.id (seq_progress db) (progress db) |}).
Proof.
  intros Hw.
  unfold post_words, respond, post_words_stmts, bind.
  rewrite Hw. cbn [bind_param]. rewrite insert_word_some.
  cbn [lastInsertRowid].
  rewrite insert_progress_ok.
  - reflexivity.
  - eexists. split; [in_last | reflexivity].
Qed.

(** What it does with a null or absent surface text. *)
Lemma post_words_null b t1 t2 db :
  bind_param (Body.word b) = None ->
  post_words b t1 t2 db =
  (ServerError (SQLITE_CONSTRAINT_NOTNULL "words.word"), db).
Proof.
  intros Hw.
  unfold post_words, respond, post_words_stmts, bind, insert_word.
  rewrite Hw. reflexivity.
Qed.

Lemma bind_param_cases v :
  (exists s, v = JString s) \/ bind_param v = None.
Proof. destruct v; simpl; eauto. Qed.

(** The handler is its two statements, one after the other. *)
Lemma post_words_steps b t1 t2 db :
  let (h1, db1) := handler_step t1 (Received b) db in
  let (h2, db2) := handler_step t2 h1 db1 in
  h2 = Responded (fst (post_words b t1 t2 db)) /\
  db2 = snd (post_words b t1 t2 db).
Proof.
  destruct (bind_param_cases (Body.word b)) as [[s Hs]|Hn].
  - rewrite (post_words_ok _ _ _ _ _ Hs).
    unfold handler_step at 1. rewrite Hs. cbn [bind_param].
    rewrite insert_word_some.
    unfold handler_step. cbn [lastInsertRowid].
    rewrite insert_progress_ok.
    + split; reflexivity.
    + eexists. split; [in_last | reflexivity].
  - rewrite (post_words_null _ _ _ _ Hn).
    unfold handler_step at 1, insert_word. rewrite Hn.
    simpl. split; reflexivity.
Qed.

(** ** The listing *)

Lemma datetime_leb_total a b :
  datetime_leb a b = false -> datetime_leb b a = true.
Proof.
  destruct a as [x|], b as [y|]; simpl; try congruence.
  rewrite Z.leb_gt, Z.leb_le. lia.
Qed.

Lemma datetime_leb_trans a b c :
  datetime_leb a b = true -> datetime_leb b c = true ->
  datetime_leb a c = true.
Proof.
  destruct a as [x|], b as [y|], c as [z|]; simpl; try congruence.
  rewrite !Z.leb_le. lia.
Qed.

Lemma insert_desc_perm r l : Permutation (insert_desc r l) (r :: l).
Proof.
  induction l as [|x l IH]; simpl; [reflexivity|].
  destruct (datetime_leb _ _); [reflexivity|].
  rewrite IH. apply perm_swap.
Qed.

Lemma order_by_perm rows : Permutation (order_by_created_at_desc rows) rows.
Proof.
  induction rows as [|r rows IH]; simpl; [constructor|].
  rewrite insert_desc_perm. now constructor.
Qed.

Lemma order_by_In rows r : In r (order_by_created_at_desc rows) <-> In r rows.
Proof.
  split; apply Permutation_in;
    [apply order_by_perm | symmetry; apply order_by_perm].
Qed.

Lemma order_by_length rows :
  List.length (order_by_created_at_desc rows) = List.length rows.
Proof. apply Permutation_length, order_by_perm. Qed.

Lemma insert_desc_sorted r l : newest_first l -> newest_first (insert_desc r l).
Proof.
  unfold newest_first.
  induction l as [|x l IH]; intros Hs; simpl.
  - repeat constructor.
  - inversion Hs as [|? ? Hl Hx]; subst.
    destruct (datetime_leb (Words.created_at x) (Words.created_at r)) eqn:E.
    + constructor; [assumption|]. constructor; [assumption|].
      rewrite Forall_forall in Hx |- *. intros y Hy.
      eapply datetime_leb_trans; [apply (Hx y Hy) | exact E].
    + constructor; [apply IH, Hl|].
      rewrite Forall_forall in Hx |- *. intros y Hy.
      apply (Permutation_in _ (insert_desc_perm r l)) in Hy.
      destruct Hy as [<-|Hy]; [now apply datetime_leb_total | now apply Hx].
Qed.

Lemma order_by_sorted rows : newest_first (order_by_created_at_desc rows).
Proof.
  induction rows as [|r rows IH]; simpl.
  - constructor.
  - now apply insert_desc_sorted.
Qed.

(** The route's answer is a listing in the sense of SQL. *)
Lemma get_words_is_listing db :
  get_words db = (WordsJson (order_by_created_at_desc (words db)), db) /\
  is_listing db (order_by_created_at_desc (words db)).
Proof.
  split; [reflexivity|]. split; [apply order_by_perm | apply order_by_sorted].
Qed.



(** In a sorted list every element of a first part is related to every
    element of the rest. *)
Lemma sorted_app_cross {A} (R : A -> A -> Prop) l1 l2 :
  StronglySorted R (l1 ++ l2) ->
  forall a b, In a l1 -> In b l2 -> R a b.
Proof.
  induction l1 as [|x l1 IH]; intros Hs a b Ha Hb; [destruct Ha|].
  cbn in Hs. inversion Hs as [|? ? Hl Hx]; subst.
  destruct Ha as [<-|Ha].
  - rewrite Forall_forall in Hx. apply Hx, in_or_app. now right.
  - now apply IH.
Qed.


(** ** C1: create, then list *)




(** ** Sequences of requests *)

Lemma run_cons r rs db :
  run (r :: rs) db =
  (fst (create_word r db) :: fst (run rs (snd (create_word r db))),
   snd (run rs (snd (create_word r db)))).
Proof.
  simpl. destruct (create_word r db) as [resp db1].
  simpl. now destruct (run rs db1).
Qed.

(** A request either appends one word row and one progress row, or fails
    on the NOT NULL constraint and leaves the store as it was. *)
Lemma create_word_cases r db :
  (exists s, Body.word (body r) = JString s /\
     create_word r db =
     (IdJson (next_rowid Words.id (seq_words db) (words db)),
      {| words := words db ++
           [word_row (body r) s
              (next_rowid Words.id (seq_words db) (words db)) (t_word r)];
         progress := progress db ++
           [progress_row
              (next_rowid Progress.id (seq_progress db) (progress db))
              (next_rowid Words.id (seq_words db) (words db)) (t_progress r)];
         seq_words := next_rowid Words.id (seq_words db) (words db);
         seq_progress :=
           next_rowid Progress.id (seq_progress db) (progress db) |})) \/
  (bind_param (Body.word (body r)) = None /\
   create_word r db =
   (ServerError (SQLITE_CONSTRAINT_NOTNULL "words.word"), db)).
Proof.
  unfold create_word.
  destruct (bind_param_cases (Body.word (body r))) as [[s Hs]|Hn].
  - left. exists s. split; [assumption | now apply post_words_ok].
  - right. split; [assumption | now apply post_words_null].
Qed.

(** ** C2: one progress row per word *)

Lemma filter_none {A} (f : A -> bool) l :
  (forall x, In x l -> f x = false) -> filter f l = [].
Proof.
  induction l as [|x l IH]; intros H; simpl; [reflexivity|].
  rewrite (H x (or_introl eq_refl)). apply IH. intros y Hy. apply H. now right.
Qed.

Lemma tracked_empty exact : tracked exact empty_store.
Proof. split; intros ? []. Qed.

Lemma tracked_create_word exact r db :
  tracked exact db -> (exact = true -> same_second r) ->
  tracked exact (snd (create_word r db)).
Proof.
  intros [Hown Htr] Hsec.
  destruct (create_word_cases r db) as [(s & Hs & ->)|(_ & ->)];
    [|now split].
  set (i := next_rowid Words.id (seq_words db) (words db)).
  set (k := next_rowid Progress.id (seq_progress db) (progress db)).
  cbn [snd]. split.
  - intros p Hp. cbn [progress words] in *.
    apply in_app_or in Hp. destruct Hp as [Hp|[<-|[]]].
    + destruct (Hown p Hp) as (w & Hw & Hpw).
      exists w. split; [apply in_or_app; now left | assumption].
    + eexists. split; [apply in_or_app; right; now left | reflexivity].
  - intros w Hw. cbn [words] in Hw.
    unfold word_tracked, progress_of. cbn [progress].
    rewrite filter_app.
    apply in_app_or in Hw. destruct Hw as [Hw|[<-|[]]].
    + destruct (Htr w Hw) as (p & Hp & Hst & Hnr & Hex).
      exists p. split; [|auto].
      unfold progress_of in Hp. rewrite Hp. cbn.
      pose proof (next_rowid_fresh Words.id (seq_words db) _ _ Hw) as Hlt.
      fold i in Hlt.
      destruct (i =? Words.id w) eqn:E; [apply Z.eqb_eq in E; lia|].
      reflexivity.
    + exists (progress_row k i (t_progress r)).
      split; [|split; [reflexivity|split; [discriminate|]]].
      * rewrite filter_none.
        -- cbn. now rewrite Z.eqb_refl.
        -- intros p Hp. destruct (Hown p Hp) as (w & Hw & ->).
           pose proof (next_rowid_fresh Words.id (seq_words db) _ _ Hw) as Hlt.
           cbn. fold i in Hlt. apply Z.eqb_neq. lia.
      * intros He. cbn. f_equal. symmetry. apply (Hsec He).
Qed.

Lemma tracked_run exact rs db :
  tracked exact db -> (exact = true -> Forall same_second rs) ->
  tracked exact (snd (run rs db)).
Proof.
  revert db. induction rs as [|r rs IH]; intros db Ht Hsec; [exact Ht|].
  rewrite run_cons. cbn [snd]. apply IH.
  - apply tracked_create_word; [assumption|].
    intros He. specialize (Hsec He). now inversion Hsec.
  - intros He. specialize (Hsec He). now inversion Hsec.
Qed.






(** ** C3 and C10: surface text empty, null or absent *)

(** C3, as stated, fails: a body whose surface text is the empty string is
    answered with identifier 1 and its word row is stored. *)
Lemma C3_empty_surface_text_is_stored :
  let (resp, db) := post_words (text_body "") 1000 1000 empty_store in
  Body.word (text_body "") = JString "" /\
  resp = IdJson 1 /\
  words db = [word_row (text_body "") "" 1 1000].
Proof. vm_compute. repeat split. Qed.

(** C3, amended: a body whose surface text is null or absent is rejected,
    by the NOT NULL constraint of the store surfacing as a server error,
    and no word row is created; a body whose surface text is the empty
    string is accepted and its word row is created. *)
Theorem C3_only_null_surface_text_rejected b t1 t2 db :
  (Body.word b = Absent \/ Body.word b = JNull ->
   fst (post_words b t1 t2 db) =
     ServerError (SQLITE_CONSTRAINT_NOTNULL "words.word") /\
   words (snd (post_words b t1 t2 db)) = words db) /\
  (Body.word b = JString "" ->
   exists i,
     fst (post_words b t1 t2 db) = IdJson i /\
     words (snd (post_words b t1 t2 db)) = words db ++ [word_row b "" i t1]).
Proof.
  split.
  - intros Hw. rewrite post_words_null; [now split|].
    destruct Hw as [-> | ->]; reflexivity.
  - intros Hw. rewrite (post_words_ok _ _ _ _ _ Hw). eexists. split; reflexivity.
Qed.

Lemma C3_only_null_surface_text_rejected_witness :
  (fst (post_words no_word_body 1000 1000 alpha_store) =
     ServerError (SQLITE_CONSTRAINT_NOTNULL "words.word") /\
   words (snd (post_words no_word_body 1000 1000 alpha_store)) =
     words alpha_store) /\
  (exists i,
     fst (post_words (text_body "") 1000 1000 alpha_store) = IdJson i /\
     words (snd (post_words (text_body "") 1000 1000 alpha_store)) =
       words alpha_store ++ [word_row (text_body "") "" i 1000]).
Proof.
  split.
  - apply (C3_only_null_surface_text_rejected no_word_body 1000 1000
             alpha_store).
    left. reflexivity.
  - apply (C3_only_null_surface_text_rejected (text_body "") 1000 1000
             alpha_store).
    reflexivity.
Defined.

(** C10: with a null or absent surface text the word INSERT fails on the
    NOT NULL constraint and writes nothing; the handler has answered after
    that one statement, the progress INSERT never runs, and the route
    leaves the store exactly as it was. *)
Theorem C10_null_word_fails_before_progress b t1 t2 db :
  Body.word b = JNull \/ Body.word b = Absent ->
  insert_word (bind_param (Body.word b))
              (bind_param (Body.context_sentence b))
              (bind_param (Body.meaning b))
              (bind_param (Body.phonetic_us b))
              (bind_param (Body.phonetic_uk b))
              (bind_param (Body.image_url b)) t1 db =
    (inl (SQLITE_CONSTRAINT_NOTNULL "words.word"), db) /\
  handler_step t1 (Received b) db =
    (Responded (ServerError (SQLITE_CONSTRAINT_NOTNULL "words.word")), db) /\
  post_words b t1 t2 db =
    (ServerError (SQLITE_CONSTRAINT_NOTNULL "words.word"), db).
Proof.
  intros Hw.
  assert (Hn : bind_param (Body.word b) = None)
    by (destruct Hw as [-> | ->]; reflexivity).
  split; [|split].
  - unfold insert_word. now rewrite Hn.
  - unfold handler_step, insert_word. now rewrite Hn.
  - now apply post_words_null.
Qed.

Lemma C10_null_word_fails_before_progress_witness :
  handler_step 1000 (Received no_word_body) alpha_store =
    (Responded (ServerError (SQLITE_CONSTRAINT_NOTNULL "words.word")),
     alpha_store) /\
  post_words no_word_body 1000 1001 alpha_store =
    (ServerError (SQLITE_CONSTRAINT_NOTNULL "words.word"), alpha_store).
Proof.
  apply (C10_null_word_fails_before_progress no_word_body 1000 1001
           alpha_store).
  right. reflexivity.
Defined.

(** ** C4: identifiers *)

(** C4: over any sequence of [POST /api/words] requests on any store, the
    identifiers handed out are strictly increasing, each is greater than
    the identifier of every word stored before, and the word rows are
    exactly the old rows, untouched, followed by one new row per identifier
    handed out: no identifier is given to a second word. *)
Theorem C4_identifiers_increase_and_are_never_reused rs db :
  StronglySorted Z.lt (assigned_ids (fst (run rs db))) /\
  Forall (fun i => forall w, In w (words db) -> Words.id w < i)
         (assigned_ids (fst (run rs db))) /\
  exists created,
    words (snd (run rs db)) = words db ++ created /\
    map Words.id created = assigned_ids (fst (run rs db)).
Proof.
  revert db. induction rs as [|r rs IH]; intros db.
  - cbn. repeat split; try constructor. exists []. now rewrite app_nil_r.
  - rewrite run_cons. cbn [fst snd].
    destruct (create_word_cases r db) as [(s & Hs & ->)|(_ & ->)]; cbn [fst snd].
    + set (i := next_rowid Words.id (seq_words db) (words db)).
      match goal with |- context [run rs ?d] => set (db1 := d) end.
      destruct (IH db1) as (Hsorted & Hall & created & Hwords & Hids).
      cbn [assigned_ids flat_map app]. fold (assigned_ids (fst (run rs db1))).
      rewrite Forall_forall in Hall.
      split; [|split].
      * constructor; [assumption|].
        rewrite Forall_forall. intros j Hj.
        apply (Hall j Hj (word_row (body r) s i (t_word r))).
        subst db1. cbn [words]. apply in_or_app. right. now left.
      * constructor.
        -- intros w Hw. now apply next_rowid_fresh.
        -- rewrite Forall_forall. intros j Hj w Hw. apply (Hall j Hj).
           subst db1. cbn [words]. apply in_or_app. now left.
      * exists (word_row (body r) s i (t_word r) :: created). split.
        -- rewrite Hwords. subst db1. cbn [words]. now rewrite <- app_assoc.
        -- cbn [map]. now rewrite Hids.
    + cbn [assigned_ids flat_map app]. apply IH.
Qed.

(** ** C5: the count *)

Lemma run_words_length rs db :
  List.length (words (snd (run rs db))) =
  (List.length (words db) +
   List.length (filter succeeded (fst (run rs db))))%nat.
Proof.
  revert db. induction rs as [|r rs IH]; intros db.
  - cbn. lia.
  - rewrite run_cons. cbn [fst snd]. rewrite IH.
    destruct (create_word_cases r db) as [(s & Hs & ->)|(_ & ->)];
      cbn [fst snd filter succeeded words].
    + rewrite length_app. cbn [List.length]. lia.
    + lia.
Qed.

(** C5: [GET /api/stats] answers with the number of word rows, whatever the
    store; that number is the length of what [GET /api/words] returns; and
    after a sequence of requests on a fresh store it is the number of
    requests that succeeded. *)
Theorem C5_stats_is_the_number_of_words db rs :
  fst (get_stats db) = StatsJson (Z.of_nat (List.length (words db))) /\
  (exists rows,
     fst (get_words db) = WordsJson rows /\
     fst (get_stats db) = StatsJson (Z.of_nat (List.length rows))) /\
  fst (get_stats (snd (run rs empty_store))) =
    StatsJson
      (Z.of_nat (List.length (filter succeeded (fst (run rs empty_store))))).
Proof.
  split; [reflexivity|]. split.
  - eexists. split; [reflexivity|].
    cbn. now rewrite order_by_length.
  - unfold get_stats, respond, select_count. cbn [fst].
    now rewrite run_words_length.
Qed.

(** ** C6: the stored fields *)

Lemma created_row_listed b s t1 t2 db :
  Body.word b = JString s ->
  exists i db' rows,
    post_words b t1 t2 db = (IdJson i, db') /\
    get_words db' = (WordsJson rows, db') /\
    In (word_row b s i t1) rows /\
    (forall r, In r rows -> Words.id r = i -> r = word_row b s i t1).
Proof.
  intros Hs. eexists. eexists. eexists.
  split; [apply (post_words_ok _ _ _ _ _ Hs)|].
  split; [reflexivity|]. cbn [words]. split.
  - apply order_by_In, in_or_app. right. now left.
  - intros r Hr Hid. apply order_by_In, in_app_or in Hr.
    destruct Hr as [Hr|[<-|[]]]; [|reflexivity].
    apply (next_rowid_fresh Words.id (seq_words db)) in Hr. lia.
Qed.

(** C6: the row [GET /api/words] returns for a created word holds the
    fields of the body as they were sent (a text as that text, a null or
    absent field as NULL), together with the assigned [id] and
    [created_at], and it is the only row with that [id].  For a body built
    by [saveWord], the record's context explanation comes back as
    [context_sentence] and every other field under its own name. *)
Theorem C6_fields_are_stored_unchanged :
  (forall b s t1 t2 db,
     Body.word b = JString s ->
     exists i db' rows,
       post_words b t1 t2 db = (IdJson i, db') /\
       get_words db' = (WordsJson rows, db') /\
       In {| Words.id := i;
             Words.word := s;
             Words.context_sentence := bind_param (Body.context_sentence b);
             Words.meaning := bind_param (Body.meaning b);
             Words.phonetic_us := bind_param (Body.phonetic_us b);
             Words.phonetic_uk := bind_param (Body.phonetic_uk b);
             Words.image_url := bind_param (Body.image_url b);
             Words.created_at := Some (datetime_now t1) |} rows /\
       (forall r, In r rows -> Words.id r = i -> r = word_row b s i t1)) /\
  (forall rec t1 t2 db,
     exists i db' rows,
       post_words (saveWord_body rec) t1 t2 db = (IdJson i, db') /\
       get_words db' = (WordsJson rows, db') /\
       In {| Words.id := i;
             Words.word := WordRecord.word rec;
             Words.context_sentence := Some (WordRecord.context_explanation rec);
             Words.meaning := Some (WordRecord.meaning rec);
             Words.phonetic_us := Some (WordRecord.phonetic_us rec);
             Words.phonetic_uk := Some (WordRecord.phonetic_uk rec);
             Words.image_url := WordRecord.image_url rec;
             Words.created_at := Some (datetime_now t1) |} rows).
Proof.
  split.
  - intros b s t1 t2 db Hs. apply (created_row_listed b s t1 t2 db Hs).
  - intros rec t1 t2 db.
    destruct (created_row_listed (saveWord_body rec) (WordRecord.word rec)
                t1 t2 db eq_refl) as (i & db' & rows & Hp & Hg & Hin & _).
    exists i, db', rows. split; [assumption|]. split; [assumption|].
    unfold word_row, saveWord_body in Hin. cbn in Hin.
    now destruct (WordRecord.image_url rec).
Qed.

(** The scenario of the specification: on a fresh store the word gets
    identifier 1, the count is 1, and the listing is the one row with the
    fields sent. *)
Lemma C6_fields_are_stored_unchanged_witness :
  exists i db' rows,
    post_words ubiquitous_body 1000 1000 empty_store = (IdJson i, db') /\
    get_words db' = (WordsJson rows, db') /\
    In {| Words.id := i;
          Words.word := "ubiquitous";
          Words.context_sentence := None;
          Words.meaning := Some "present everywhere";
          Words.phonetic_us := Some "/ju:'bIkwIt@s/";
          Words.phonetic_uk := None;
          Words.image_url := None;
          Words.created_at := Some 1 |} rows /\
    (forall r, In r rows -> Words.id r = i ->
       r = word_row ubiquitous_body "ubiquitous" i 1000).
Proof.
  apply (proj1 C6_fields_are_stored_unchanged ubiquitous_body "ubiquitous"
           1000 1000 empty_store).
  reflexivity.
Defined.

(** ** C7: duplicates *)

(** C7: the same body posted twice succeeds twice; the two identifiers
    differ; after the second call the table holds the rows it held before,
    then the row of the first call exactly as the first call left it, then
    the row of the second. *)
Theorem C7_duplicates_create_separate_records b s t1 t2 t3 t4 db :
  Body.word b = JString s ->
  exists i1 i2 db1 db2,
    post_words b t1 t2 db = (IdJson i1, db1) /\
    post_words b t3 t4 db1 = (IdJson i2, db2) /\
    i1 <> i2 /\
    words db1 = words db ++ [word_row b s i1 t1] /\
    words db2 = words db ++ [word_row b s i1 t1; word_row b s i2 t3].
Proof.
  intros Hs.
  eexists. eexists. eexists. eexists.
  split; [apply (post_words_ok _ _ _ _ _ Hs)|].
  split; [apply (post_words_ok _ _ _ _ _ Hs)|].
  cbn [words seq_words]. split; [|split].
  - match goal with |- ?i <> next_rowid _ ?i _ =>
      pose proof (next_rowid_above_seq Words.id i
        (words db ++ [word_row b s i t1])) end.
    lia.
  - reflexivity.
  - now rewrite <- app_assoc.
Qed.

Lemma C7_duplicates_create_separate_records_witness :
  exists i1 i2 db1 db2,
    post_words (text_body "alpha") 1000 1000 alpha_store = (IdJson i1, db1) /\
    post_words (text_body "alpha") 1000 1000 db1 = (IdJson i2, db2) /\
    i1 <> i2 /\
    words db1 =
      words alpha_store ++ [word_row (text_body "alpha") "alpha" i1 1000] /\
    words db2 =
      words alpha_store ++ [word_row (text_body "alpha") "alpha" i1 1000;
                            word_row (text_body "alpha") "alpha" i2 1000].
Proof.
  apply (C7_duplicates_create_separate_records (text_body "alpha") "alpha"
           1000 1000 1000 1000 alpha_store).
  reflexivity.
Defined.

(** ** C8: reads *)

(** C8: [GET /api/words] and [GET /api/stats] leave the store as it is, and
    asking again gives the same answer. *)
Theorem C8_reads_have_no_side_effects db :
  snd (get_words db) = db /\
  snd (get_stats db) = db /\
  fst (get_words (snd (get_words db))) = fst (get_words db) /\
  fst (get_stats (snd (get_stats db))) = fst (get_stats db) /\
  fst (get_words (snd (get_stats db))) = fst (get_words db) /\
  fst (get_stats (snd (get_words db))) = fst (get_stats db).
Proof. repeat split. Qed.

(** ** C9: racing requests *)

Lemma serving_grows b s h db db' :
  serving b s h db -> (exists new, words db' = words db ++ new) ->
  serving b s h db'.
Proof.
  intros Hs [new Hnew].
  destruct h as [b'|info|[rows|i|n|e]]; cbn in *; try assumption;
    destruct Hs as [t Ht]; exists t; rewrite Hnew; apply in_or_app; now left.
Qed.

Lemma serving_held b s h db j :
  serving b s h db -> held_id h = Some j ->
  exists w, In w (words db) /\ Words.id w = j.
Proof.
  destruct h as [b'|info|[rows|i|n|e]]; cbn; try discriminate;
    intros [t Ht] [= <-]; eexists; (split; [exact Ht | reflexivity]).
Qed.

(** One statement of a handler that is on track: it stays on track, has one
    statement less to run, only appends to [words], and an identifier it
    newly holds is above every identifier in the table. *)
Lemma handler_step_serving b s t h db :
  Body.word b = JString s -> serving b s h db ->
  serving b s (fst (handler_step t h db)) (snd (handler_step t h db)) /\
  pending (fst (handler_step t h db)) = Nat.pred (pending h) /\
  (exists new, words (snd (handler_step t h db)) = words db ++ new) /\
  (forall j, held_id (fst (handler_step t h db)) = Some j ->
     held_id h = Some j \/ forall w, In w (words db) -> Words.id w < j).
Proof.
  intros Hw Hs.
  destruct h as [b'|info|r].
  - cbn in Hs. subst b'. unfold handler_step. rewrite Hw. cbn [bind_param].
    rewrite insert_word_some. cbn [fst snd words pending Nat.pred held_id
      lastInsertRowid serving].
    split; [|split; [|split]].
    + exists t. apply in_or_app. right. left.
      unfold word_row. reflexivity.
    + reflexivity.
    + eexists. reflexivity.
    + intros j [= <-]. right. intros w Hin. now apply next_rowid_fresh.
  - cbn in Hs. destruct Hs as [t' Ht'].
    unfold handler_step. rewrite insert_progress_ok
      by (eexists; split; [exact Ht' | reflexivity]).
    cbn [fst snd words pending Nat.pred held_id serving].
    split; [|split; [|split]].
    + now exists t'.
    + reflexivity.
    + exists []. now rewrite app_nil_r.
    + intros j Hj. now left.
  - cbn [handler_step fst snd pending Nat.pred].
    split; [assumption|]. split; [reflexivity|]. split.
    + exists []. now rewrite app_nil_r.
    + intros j Hj. now left.
Qed.

Section Race.

Variables (b1 b2 : Body.t) (s1 s2 : string).
Hypothesis Hw1 : Body.word b1 = JString s1.
Hypothesis Hw2 : Body.word b2 = JString s2.

(** Along any schedule both handlers stay on track and apart, and each has
    run as many of its statements as the schedule gave it turns. *)
Lemma race_invariant sched :
  forall h1 h2 db,
    serving b1 s1 h1 db -> serving b2 s2 h2 db -> apart h1 h2 ->
    let '(h1', h2', db') := race sched h1 h2 db in
    serving b1 s1 h1' db' /\ serving b2 s2 h2' db' /\ apart h1' h2' /\
    pending h1' = (pending h1 - turns_of_first sched)%nat /\
    pending h2' = (pending h2 - turns_of_second sched)%nat.
Proof.
  induction sched as [|[[|] t] sched IH]; intros h1 h2 db Hs1 Hs2 Hap.
  - cbn. repeat split; try assumption; lia.
  - cbn [race].
    destruct (handler_step_serving b1 s1 t h1 db Hw1 Hs1)
      as (Hs1' & Hp & Hgrow & Hnew).
    destruct (handler_step t h1 db) as [h1' db1]. cbn [fst snd] in *.
    specialize (IH h1' h2 db1 Hs1' (serving_grows _ _ _ _ _ Hs2 Hgrow)).
    destruct (race sched h1' h2 db1) as [[h1'' h2''] db''].
    destruct IH as (? & ? & ? & Hp1 & Hp2).
    + intros i j Hi Hj. destruct (Hnew i Hi) as [Hold|Hfresh].
      * now apply Hap.
      * destruct (serving_held _ _ _ _ _ Hs2 Hj) as (w & Hin & <-).
        specialize (Hfresh w Hin). lia.
    + repeat split; try assumption.
      rewrite Hp1, Hp. unfold turns_of_first. cbn. lia.
  - cbn [race].
    destruct (handler_step_serving b2 s2 t h2 db Hw2 Hs2)
      as (Hs2' & Hp & Hgrow & Hnew).
    destruct (handler_step t h2 db) as [h2' db1]. cbn [fst snd] in *.
    specialize (IH h1 h2' db1 (serving_grows _ _ _ _ _ Hs1 Hgrow) Hs2').
    destruct (race sched h1 h2' db1) as [[h1'' h2''] db''].
    destruct IH as (? & ? & ? & Hp1 & Hp2).
    + intros i j Hi Hj. destruct (Hnew j Hj) as [Hold|Hfresh].
      * now apply Hap.
      * destruct (serving_held _ _ _ _ _ Hs1 Hi) as (w & Hin & <-).
        specialize (Hfresh w Hin). lia.
    + repeat split; try assumption.
      rewrite Hp2, Hp. unfold turns_of_second. cbn. lia.
Qed.

End Race.

(** A handler that is on track and has nothing left to run has answered
    with the identifier of its row. *)
Lemma serving_done b s h db :
  serving b s h db -> pending h = 0%nat ->
  exists i t, h = Responded (IdJson i) /\ In (word_row b s i t) (words db).
Proof.
  destruct h as [b'|info|[rows|i|n|e]]; cbn; try discriminate; try tauto.
  intros [t Ht] _. now exists i, t.
Qed.

(** Run to completion, as the event loop of one process does, a race is
    one request served after the other. *)
Lemma race_serial b1 b2 t1 t2 t3 t4 db :
  race [(First, t1); (First, t2); (Second, t3); (Second, t4)]
       (Received b1) (Received b2) db =
  (Responded (fst (post_words b1 t1 t2 db)),
   Responded (fst (post_words b2 t3 t4 (snd (post_words b1 t1 t2 db)))),
   snd (post_words b2 t3 t4 (snd (post_words b1 t1 t2 db)))).
Proof.
  cbn [race].
  pose proof (post_words_steps b1 t1 t2 db) as H1.
  destruct (handler_step t1 (Received b1) db) as [h1 db1].
  destruct (handler_step t2 h1 db1) as [h1' db1'].
  destruct H1 as [-> ->].
  pose proof (post_words_steps b2 t3 t4 (snd (post_words b1 t1 t2 db))) as H2.
  destruct (handler_step t3 (Received b2) _) as [h2 db2].
  destruct (handler_step t4 h2 db2) as [h2' db2'].
  now destruct H2 as [-> ->].
Qed.

(** C9: two [POST /api/words] requests, each with a text for surface text,
    share the store; their statements interleave in any order in which
    each handler gets to run both of its statements.  Both are answered
    with an identifier, the two identifiers differ, and [GET /api/words]
    then returns the row of each under its identifier. *)
Theorem C9_racing_creates_get_distinct_ids b1 s1 b2 s2 sched db :
  Body.word b1 = JString s1 -> Body.word b2 = JString s2 ->
  (2 <= turns_of_first sched)%nat -> (2 <= turns_of_second sched)%nat ->
  exists i1 i2 db',
    race sched (Received b1) (Received b2) db =
      (Responded (IdJson i1), Responded (IdJson i2), db') /\
    i1 <> i2 /\
    exists rows u1 u2,
      get_words db' = (WordsJson rows, db') /\
      In (word_row b1 s1 i1 u1) rows /\
      In (word_row b2 s2 i2 u2) rows.
Proof.
  intros Hw1 Hw2 Hn1 Hn2.
  pose proof (race_invariant b1 b2 s1 s2 Hw1 Hw2 sched
                (Received b1) (Received b2) db eq_refl eq_refl) as H.
  destruct (race sched (Received b1) (Received b2) db) as [[h1 h2] db'].
  destruct H as (Hs1 & Hs2 & Hap & Hp1 & Hp2);
    [intros i j [=]|].
  cbn [pending] in Hp1, Hp2.
  destruct (serving_done _ _ _ _ Hs1) as (i1 & u1 & -> & Hin1); [lia|].
  destruct (serving_done _ _ _ _ Hs2) as (i2 & u2 & -> & Hin2); [lia|].
  exists i1, i2, db'. split; [reflexivity|]. split.
  - now apply Hap.
  - exists (order_by_created_at_desc (words db')), u1, u2.
    split; [reflexivity|]. split; now apply order_by_In.
Qed.

Lemma C9_racing_creates_get_distinct_ids_witness :
  exists i1 i2 db',
    race overtaking (Received (text_body "alpha")) (Received (text_body "beta"))
         empty_store =
      (Responded (IdJson i1), Responded (IdJson i2), db') /\
    i1 <> i2 /\
    exists rows u1 u2,
      get_words db' = (WordsJson rows, db') /\
      In (word_row (text_body "alpha") "alpha" i1 u1) rows /\
      In (word_row (text_body "beta") "beta" i2 u2) rows.
Proof.
  apply (C9_racing_creates_get_distinct_ids
           (text_body "alpha") "alpha" (text_body "beta") "beta"
           overtaking empty_store).
  - reflexivity.
  - reflexivity.
  - vm_compute. lia.
  - vm_compute. lia.
Defined.

(** * Further properties of the store *)

(** ** What the answer says *)

(** The answer of [POST /api/words] tells what was written.  Answered with
    an identifier, the request has appended exactly one word row, which
    carries that identifier and no other word does, and exactly one
    progress row, which references it.  Answered with the NOT NULL error,
    it has written nothing. *)
Theorem post_words_answer_tells_what_was_written b t1 t2 db :
  (forall i,
     fst (post_words b t1 t2 db) = IdJson i ->
     exists w p,
       words (snd (post_words b t1 t2 db)) = words db ++ [w] /\
       progress (snd (post_words b t1 t2 db)) = progress db ++ [p] /\
       Words.id w = i /\
       Progress.word_id p = Some i /\
       (forall w', In w' (words db) -> Words.id w' <> i)) /\
  (forall column,
     fst (post_words b t1 t2 db) =
       ServerError (SQLITE_CONSTRAINT_NOTNULL column) ->
     snd (post_words b t1 t2 db) = db).
Proof.
  destruct (bind_param_cases (Body.word b)) as [[s Hs]|Hn].
  - rewrite (post_words_ok _ _ _ _ _ Hs). cbn [fst snd words progress].
    split; [|discriminate]. intros i [= <-].
    eexists. eexists. split; [reflexivity|]. split; [reflexivity|].
    split; [reflexivity|]. split; [reflexivity|].
    intros w' Hw'. apply (next_rowid_fresh Words.id (seq_words db)) in Hw'.
    lia.
  - rewrite (post_words_null _ _ _ _ Hn). cbn [fst snd].
    split; [discriminate | reflexivity].
Qed.

Lemma post_words_answer_tells_what_was_written_witness :
  (exists w p,
     words (snd (post_words (text_body "beta") 2000 2001 alpha_store)) =
       words alpha_store ++ [w] /\
     progress (snd (post_words (text_body "beta") 2000 2001 alpha_store)) =
       progress alpha_store ++ [p] /\
     Words.id w = 2 /\
     Progress.word_id p = Some 2 /\
     (forall w', In w' (words alpha_store) -> Words.id w' <> 2)) /\
  snd (post_words no_word_body 2000 2001 alpha_store) = alpha_store.
Proof.
  split.
  - apply (proj1 (post_words_answer_tells_what_was_written
                    (text_body "beta") 2000 2001 alpha_store) 2).
    reflexivity.
  - apply (proj2 (post_words_answer_tells_what_was_written
                    no_word_body 2000 2001 alpha_store) "words.word").
    reflexivity.
Defined.

(** ** Identifiers on a fresh store *)

Lemma ids_upto_S n : ids_upto (S n) = ids_upto n ++ [Z.of_nat (S n)].
Proof. unfold ids_upto. now rewrite seq_S, map_app. Qed.

Lemma ids_upto_bound n i : In i (ids_upto n) -> 1 <= i <= Z.of_nat n.
Proof.
  unfold ids_upto. rewrite in_map_iff. intros (k & <- & Hk).
  apply in_seq in Hk. lia.
Qed.

Lemma max_rowid_upper {R} (rowid : R -> Z) rows m :
  0 <= m -> (forall r, In r rows -> rowid r <= m) -> max_rowid rowid rows <= m.
Proof.
  intros Hm. induction rows as [|x rows IH]; intros H; simpl; [assumption|].
  apply Z.max_lub.
  - apply H. now left.
  - apply IH. intros r Hr. apply H. now right.
Qed.

Lemma max_rowid_nonneg {R} (rowid : R -> Z) rows : 0 <= max_rowid rowid rows.
Proof. induction rows as [|x rows IH]; simpl; lia. Qed.

(** A table numbered 1 to [n] hands out [n + 1] next. *)
Lemma next_rowid_ids_upto {R} (rowid : R -> Z) rows n :
  map rowid rows = ids_upto n ->
  next_rowid rowid (Z.of_nat n) rows = Z.of_nat (S n).
Proof.
  intros Hids. unfold next_rowid.
  assert (max_rowid rowid rows <= Z.of_nat n).
  { apply max_rowid_upper; [lia|]. intros r Hr.
    apply (in_map rowid) in Hr. rewrite Hids in Hr.
    apply ids_upto_bound in Hr. lia. }
  lia.
Qed.

Lemma in_lockstep_empty : in_lockstep 0 empty_store.
Proof. repeat split. Qed.

Lemma in_lockstep_create_word n r db :
  in_lockstep n db ->
  (has_text r = true /\
   fst (create_word r db) = IdJson (Z.of_nat (S n)) /\
   in_lockstep (S n) (snd (create_word r db))) \/
  (has_text r = false /\
   succeeded (fst (create_word r db)) = false /\
   snd (create_word r db) = db).
Proof.
  intros (Hw & Hp & Hwp & Hsw & Hsp).
  unfold has_text.
  destruct (create_word_cases r db) as [(s & Hs & ->)|(Hn & ->)].
  - left. rewrite Hs. cbn [bind_param fst snd].
    rewrite Hsw, Hsp.
    rewrite (next_rowid_ids_upto Words.id _ _ Hw).
    rewrite (next_rowid_ids_upto Progress.id _ _ Hp).
    split; [reflexivity|]. split; [reflexivity|].
    unfold in_lockstep. cbn [words progress seq_words seq_progress].
    rewrite !map_app, Hw, Hp, Hwp, ids_upto_S, map_app. cbn.
    repeat split.
  - right. rewrite Hn. cbn. repeat split.
Qed.

Lemma in_lockstep_run rs : forall n db,
  in_lockstep n db ->
  let k := List.length (filter succeeded (fst (run rs db))) in
  assigned_ids (fst (run rs db)) = map Z.of_nat (seq (S n) k) /\
  in_lockstep (n + k) (snd (run rs db)).
Proof.
  induction rs as [|r rs IH]; intros n db Hl.
  - cbn. now rewrite Nat.add_0_r.
  - rewrite run_cons. cbn [fst snd].
    destruct (in_lockstep_create_word n r db Hl)
      as [(_ & Hresp & Hl')|(_ & Hfail & Hdb)].
    + rewrite Hresp. cbn [filter succeeded List.length assigned_ids flat_map].
      destruct (IH (S n) _ Hl') as [Hids Hl''].
      fold (assigned_ids (fst (run rs (snd (create_word r db))))).
      rewrite Hids. cbn [app seq map].
      split; [reflexivity|].
      now rewrite Nat.add_succ_r.
    + rewrite Hdb.
      destruct (fst (create_word r db)) as [rows|i|c|e]; try discriminate;
        cbn [filter succeeded assigned_ids flat_map app];
        apply (IH n db Hl).
Qed.

(** On a fresh store identifiers are handed out without gaps: the k-th
    successful request is answered with k, rejected requests use up no
    identifier, and after n successes the words are numbered 1 to n in
    the order they were created. *)
Theorem fresh_store_ids_are_gapless rs :
  assigned_ids (fst (run rs empty_store)) =
    ids_upto (List.length (filter succeeded (fst (run rs empty_store)))) /\
  map Words.id (words (snd (run rs empty_store))) =
    ids_upto (List.length (filter succeeded (fst (run rs empty_store)))).
Proof.
  destruct (in_lockstep_run rs 0%nat empty_store in_lockstep_empty)
    as [Hids Hl].
  split; [exact Hids | apply Hl].
Qed.

(** On a fresh store the progress table mirrors the word table: progress
    row k has identifier k and references word k, so both tables have the
    same number of rows. *)
Theorem fresh_store_progress_mirrors_words rs :
  map Progress.word_id (progress (snd (run rs empty_store))) =
    map (fun w => Some (Words.id w)) (words (snd (run rs empty_store))) /\
  map Progress.id (progress (snd (run rs empty_store))) =
    map Words.id (words (snd (run rs empty_store))) /\
  List.length (progress (snd (run rs empty_store))) =
    List.length (words (snd (run rs empty_store))).
Proof.
  destruct (in_lockstep_run rs 0%nat empty_store in_lockstep_empty)
    as [_ (Hw & Hp & Hwp & _)].
  assert (Hids : map Progress.id (progress (snd (run rs empty_store))) =
                 map Words.id (words (snd (run rs empty_store))))
    by now rewrite Hw, Hp.
  split; [|split; [exact Hids|]].
  - rewrite Hwp, <- Hw. now rewrite map_map.
  - apply (f_equal (@List.length Z)) in Hids. now rewrite !length_map in Hids.
Qed.

(** ** Progress rows are written once *)

(** No request ever changes or removes a progress row: after any sequence
    of requests on any store the old progress rows are where they were,
    followed by rows that are all new, never reviewed and due. *)
Theorem progress_rows_are_only_appended rs db :
  exists added,
    progress (snd (run rs db)) = progress db ++ added /\
    Forall untouched added.
Proof.
  revert db. induction rs as [|r rs IH]; intros db.
  - exists []. cbn. now rewrite app_nil_r.
  - rewrite run_cons. cbn [snd].
    destruct (IH (snd (create_word r db))) as (added & Hadd & Hun).
    rewrite Hadd.
    destruct (create_word_cases r db) as [(s & Hs & ->)|(_ & ->)];
      cbn [snd progress].
    + eexists. rewrite <- app_assoc. split; [reflexivity|].
      constructor; [|assumption].
      repeat split. discriminate.
    + now exists added.
Qed.

(** ** Rejected requests *)

(** A rejected request leaves no trace: the store and the identifiers
    handed out are what they would be had only the requests with a text
    for surface text been sent. *)
Theorem rejected_requests_leave_no_trace rs db :
  snd (run rs db) = snd (run (filter has_text rs) db) /\
  assigned_ids (fst (run rs db)) =
    assigned_ids (fst (run (filter has_text rs) db)).
Proof.
  revert db. induction rs as [|r rs IH]; intros db; [now split|].
  cbn [filter].
  destruct (create_word_cases r db) as [(s & Hs & Hc)|(Hn & Hc)].
  - assert (Ht : has_text r = true) by (unfold has_text; now rewrite Hs).
    rewrite Ht, !run_cons. cbn [fst snd].
    destruct (IH (snd (create_word r db))) as [Hdb Hids].
    split; [exact Hdb|].
    unfold assigned_ids in *. cbn [flat_map]. now rewrite Hids.
  - assert (Ht : has_text r = false) by (unfold has_text; now rewrite Hn).
    rewrite Ht, run_cons. cbn [fst snd]. rewrite Hc.
    cbn [fst snd assigned_ids flat_map app]. apply IH.
Qed.

(** ** The order of the listing *)

Lemma datetime_leb_antisym a b :
  datetime_leb a b = true -> datetime_leb b a = true -> a = b.
Proof.
  destruct a as [x|], b as [y|]; simpl; try congruence.
  rewrite !Z.leb_le. intros. f_equal. lia.
Qed.

Lemma datetime_ltb_leb a b :
  datetime_leb a b = true -> datetime_ltb a b = true \/ a = b.
Proof.
  intros Hab. unfold datetime_ltb.
  destruct (datetime_leb b a) eqn:Hba.
  - right. now apply datetime_leb_antisym.
  - now left.
Qed.

(** The sort keeps rows of one second in the order of the scan. *)
Lemma insert_desc_stable r l :
  (forall y, In y l -> Words.id r < Words.id y) ->
  StronglySorted listed_before l ->
  StronglySorted listed_before (insert_desc r l).
Proof.
  induction l as [|x l IH]; intros Hid Hs; simpl.
  - repeat constructor.
  - inversion Hs as [|? ? Hl Hx]; subst.
    destruct (datetime_leb (Words.created_at x) (Words.created_at r)) eqn:E.
    + constructor; [assumption|].
      assert (Hrx : listed_before r x).
      { destruct (datetime_ltb_leb _ _ E) as [Hlt|Heq].
        - now left.
        - right. split; [now symmetry | apply Hid; now left]. }
      constructor; [assumption|].
      rewrite Forall_forall in Hx |- *. intros y Hy.
      assert (Hyx : datetime_leb (Words.created_at y) (Words.created_at x)
                    = true).
      { destruct (Hx y Hy) as [Hlt|[Heq _]].
        - unfold datetime_ltb in Hlt. apply negb_true_iff in Hlt.
          now apply datetime_leb_total.
        - rewrite Heq. destruct (Words.created_at y); simpl; [lia|reflexivity]. }
      destruct (datetime_ltb_leb _ _ (datetime_leb_trans _ _ _ Hyx E))
        as [Hlt|Heq].
      * now left.
      * right. split; [now symmetry | apply Hid; now right].
    + constructor.
      * apply IH; [|assumption]. intros y Hy. apply Hid. now right.
      * rewrite Forall_forall in Hx |- *. intros y Hy.
        apply (Permutation_in _ (insert_desc_perm r l)) in Hy.
        destruct Hy as [<-|Hy]; [|now apply Hx].
        left. unfold datetime_ltb. now rewrite E.
Qed.

Lemma order_by_stable rows :
  StronglySorted Z.lt (map Words.id rows) ->
  StronglySorted listed_before (order_by_created_at_desc rows).
Proof.
  induction rows as [|r rows IH]; intros Hs; simpl; [constructor|].
  inversion Hs as [|? ? Hl Hr]; subst.
  apply insert_desc_stable; [|now apply IH].
  intros y Hy. apply (proj1 (order_by_In _ _)) in Hy.
  rewrite Forall_forall in Hr. apply Hr. now apply in_map.
Qed.

Lemma ids_upto_sorted n : StronglySorted Z.lt (ids_upto n).
Proof.
  induction n as [|n IH]; [constructor|].
  rewrite ids_upto_S.
  assert (Hb : forall i, In i (ids_upto n) -> i < Z.of_nat (S n))
    by (intros i Hi; apply ids_upto_bound in Hi; lia).
  revert IH Hb. generalize (ids_upto n) as l.
  induction l as [|x l IHl]; intros Hs Hb; cbn.
  - repeat constructor.
  - inversion Hs; subst. constructor.
    + apply IHl; [assumption|]. intros i Hi. apply Hb. now right.
    + apply Forall_app. split; [assumption|].
      constructor; [apply Hb; now left | constructor].
Qed.

(** On a store that started fresh, [GET /api/words] returns every word
    once, ordered by [created_at] descending, and words created within the
    same second by identifier ascending: oldest first among those. *)
Theorem listing_order_is_newest_second_first_then_oldest_id rs :
  exists rows,
    fst (get_words (snd (run rs empty_store))) = WordsJson rows /\
    Permutation rows (words (snd (run rs empty_store))) /\
    StronglySorted listed_before rows.
Proof.
  eexists. split; [reflexivity|]. split; [apply order_by_perm|].
  apply order_by_stable.
  destruct (in_lockstep_run rs 0%nat empty_store in_lockstep_empty)
    as [_ (Hw & _)].
  rewrite Hw. apply ids_upto_sorted.
Qed.

Lemma insert_desc_oldest r l :
  (forall y, In y l ->
     datetime_ltb (Words.created_at r) (Words.created_at y) = true) ->
  insert_desc r l = l ++ [r].
Proof.
  induction l as [|x l IH]; intros Hold; simpl; [reflexivity|].
  pose proof (Hold x (or_introl eq_refl)) as Hx.
  unfold datetime_ltb in Hx. apply negb_true_iff in Hx. rewrite Hx.
  f_equal. apply IH. intros y Hy. apply Hold. now right.
Qed.

(** When every word was created in a later second than the word before
    it, [GET /api/words] returns the table in reverse: last created
    first. *)
Theorem listing_reverses_creation_order db :
  StronglySorted
    (fun a b => datetime_ltb (Words.created_at a) (Words.created_at b) = true)
    (words db) ->
  get_words db = (WordsJson (rev (words db)), db).
Proof.
  intros Hs. unfold get_words, respond, select_words, ret. do 2 f_equal.
  induction (words db) as [|x l IH]; [reflexivity|].
  inversion Hs as [|? ? Hl Hx]; subst.
  cbn [order_by_created_at_desc rev]. rewrite (IH Hl).
  apply insert_desc_oldest.
  intros y Hy. apply in_rev in Hy.
  rewrite Forall_forall in Hx. now apply Hx.
Qed.

Lemma listing_reverses_creation_order_witness :
  fst (get_words (snd (run three_requests empty_store))) =
  WordsJson [word_row (text_body "gamma") "gamma" 3 3000;
             word_row (text_body "beta") "beta" 2 2000;
             word_row (text_body "alpha") "alpha" 1 1000].
Proof.
  rewrite (listing_reverses_creation_order (snd (run three_requests empty_store))).
  - reflexivity.
  - repeat constructor.
Defined.

(** ** Next review and creation *)

Lemma datetime_now_mono t u : t <= u -> datetime_now t <= datetime_now u.
Proof. intros H. unfold datetime_now. apply Z.div_le_mono; lia. Qed.

Lemma due_after_creation_create_word r db :
  clock_forward r -> progress_owned db -> due_after_creation db ->
  due_after_creation (snd (create_word r db)).
Proof.
  intros Hfw Hown Hdue.
  destruct (create_word_cases r db) as [(s & Hs & ->)|(_ & ->)];
    [|assumption].
  set (i := next_rowid Words.id (seq_words db) (words db)).
  cbn [snd]. intros w p Hw Hp.
  unfold progress_of in Hp. cbn [words progress] in Hw, Hp.
  rewrite filter_app in Hp.
  apply in_app_or in Hw. destruct Hw as [Hw|[<-|[]]].
  - apply (Hdue w p Hw).
    pose proof (next_rowid_fresh Words.id (seq_words db) _ _ Hw) as Hlt.
    fold i in Hlt.
    apply in_app_or in Hp. destruct Hp as [Hp|Hp]; [exact Hp|].
    cbn in Hp.
    destruct (i =? Words.id w) eqn:E; [apply Z.eqb_eq in E; lia | destruct Hp].
  - apply in_app_or in Hp. destruct Hp as [Hp|Hp].
    + apply filter_In in Hp. destruct Hp as [Hp Hf].
      destruct (Hown p Hp) as (w & Hw & Hpw). rewrite Hpw in Hf.
      pose proof (next_rowid_fresh Words.id (seq_words db) _ _ Hw) as Hlt.
      fold i in Hlt. cbn in Hf. apply Z.eqb_eq in Hf. lia.
    + cbn in Hp. rewrite Z.eqb_refl in Hp. destruct Hp as [<-|[]].
      exists (datetime_now (t_word r)), (datetime_now (t_progress r)).
      split; [reflexivity|]. split; [reflexivity|].
      now apply datetime_now_mono.
Qed.

(** When the clock does not go back between the two INSERTs of a request,
    no word on a store that started fresh is due for review before it was
    created: its [created_at] is at most the [next_review] of its progress
    row. *)
Theorem next_review_is_not_before_creation rs w p :
  Forall clock_forward rs ->
  In w (words (snd (run rs empty_store))) ->
  In p (progress_of (snd (run rs empty_store)) (Words.id w)) ->
  exists c n,
    Words.created_at w = Some c /\
    Progress.next_review p = Some n /\
    c <= n.
Proof.
  intros Hfw.
  assert (H : tracked false (snd (run rs empty_store)) /\
              due_after_creation (snd (run rs empty_store))).
  { assert (H0 : tracked false empty_store /\ due_after_creation empty_store)
      by (split; [apply tracked_empty | intros ? ? []]).
    revert H0. generalize empty_store as db.
    induction Hfw as [|r rs Hr Hrs IH]; intros db [Ht Hd]; [now split|].
    rewrite run_cons. cbn [snd]. apply IH. split.
    - apply tracked_create_word; [assumption | discriminate].
    - apply due_after_creation_create_word; [assumption | apply Ht | assumption]. }
  intros Hw Hp. now apply (proj2 H w p).
Qed.

Lemma next_review_is_not_before_creation_witness :
  exists c n,
    Words.created_at (word_row (text_body "gamma") "gamma" 3 3000) = Some c /\
    Progress.next_review (progress_row 3 3 3999) = Some n /\
    c <= n.
Proof.
  apply (next_review_is_not_before_creation three_requests
           (word_row (text_body "gamma") "gamma" 3 3000)
           (progress_row 3 3 3999)).
  - repeat constructor; unfold clock_forward; cbn; lia.
  - vm_compute. right. right. left. reflexivity.
  - vm_compute. left. reflexivity.
Defined.

(** ** Recommended for review *)

Lemma render_entries_throws upper_initial items :
  render_entries upper_initial items = None <->
  exists item, In item items /\ Words.word item = EmptyString.
Proof.
  induction items as [|x items IH]; cbn [render_entries].
  - split; [discriminate | intros (? & [] & _)].
  - unfold badge. destruct (Words.word x) as [|c w] eqn:E.
    + split; [|reflexivity]. intros _. exists x. split; [now left | exact E].
    + destruct (render_entries upper_initial items) as [entries|].
      * split; [discriminate|]. intros (item & [<-|Hin] & Hw).
        -- congruence.
        -- discriminate (proj2 IH (ex_intro _ item (conj Hin Hw))).
      * split; [|reflexivity]. intros _.
        destruct (proj1 IH eq_refl) as (item & Hin & Hw).
        exists item. split; [now right | exact Hw].
Qed.

Lemma render_entries_words upper_initial items entries :
  render_entries upper_initial items = Some entries ->
  map snd entries = map Words.word items.
Proof.
  revert entries. induction items as [|x items IH]; intros entries;
    cbn [render_entries].
  - now intros [= <-].
  - destruct (badge upper_initial (Words.word x)) as [b|]; [|discriminate].
    destruct (render_entries upper_initial items) as [rest|]; [|discriminate].
    intros [= <-]. cbn. f_equal. now apply IH.
Qed.

(** The review tab renders the first three rows of the listing, each with
    the upper-case initial of its word.  The render throws, and shows
    nothing, exactly when one of these three words is empty.  Otherwise it
    shows their words in the order of the listing, three of them or all
    when fewer are stored.  The three rows are stored words, and no word
    left out is newer than one of them. *)
Theorem recommended_are_the_newest upper_initial db history :
  fst (get_words db) = WordsJson history ->
  (render_recommended upper_initial history = None <->
   exists item, In item (recommended history) /\
                Words.word item = EmptyString) /\
  (forall entries,
     render_recommended upper_initial history = Some entries ->
     map snd entries = map Words.word (recommended history) /\
     List.length entries = Nat.min 3 (List.length (words db))) /\
  (forall a, In a (recommended history) -> In a (words db)) /\
  (forall a b, In a (recommended history) -> In b (skipn 3 history) ->
     datetime_leb (Words.created_at b) (Words.created_at a) = true).
Proof.
  intros [= <-]. unfold render_recommended.
  split; [apply render_entries_throws|]. split; [|split].
  - intros entries He. apply render_entries_words in He.
    split; [exact He|].
    apply (f_equal (@List.length _)) in He. rewrite !length_map in He.
    rewrite He. unfold recommended.
    now rewrite length_firstn, order_by_length.
  - intros a Ha. apply (proj1 (order_by_In _ _)). unfold recommended in Ha.
    rewrite <- (firstn_skipn 3). apply in_or_app. now left.
  - pose proof (order_by_sorted (words db)) as Hs.
    unfold newest_first in Hs.
    rewrite <- (firstn_skipn 3 (order_by_created_at_desc (words db))) in Hs.
    apply (sorted_app_cross _ _ _ Hs).
Qed.

Lemma recommended_are_the_newest_witness :
  render_recommended (fun w => w)
    (order_by_created_at_desc (words store_with_empty_word)) = None /\
  (forall entries,
     render_recommended (fun w => w)
       (order_by_created_at_desc
          (words (snd (run three_requests empty_store)))) = Some entries ->
     map snd entries = ["gamma"; "beta"; "alpha"]).
Proof.
  split.
  - apply (proj1 (recommended_are_the_newest (fun w => w)
                    store_with_empty_word
                    (order_by_created_at_desc (words store_with_empty_word))
                    eq_refl)).
    exists (word_row (text_body "") "" 4 4000).
    split; [vm_compute; now left | reflexivity].
  - intros entries He.
    apply (proj1 (proj2 (recommended_are_the_newest (fun w => w)
                           (snd (run three_requests empty_store))
                           (order_by_created_at_desc
                              (words (snd (run three_requests empty_store))))
                           eq_refl))) in He.
    exact (proj1 He).
Defined.

(** ** Racing requests and the progress table *)

Lemma apart_sym h1 h2 : apart h1 h2 -> apart h2 h1.
Proof. intros H i j Hi Hj Heq. now apply (H j i Hj Hi). Qed.

Lemma in_flight_held h j : In j (in_flight h) -> held_id h = Some j.
Proof. destruct h as [b|info|r]; cbn; try tauto. now intros [->|[]]. Qed.

Lemma paired_but_sym h1 h2 db : paired_but h1 h2 db -> paired_but h2 h1 db.
Proof.
  intros [Hown Hp]. split; [assumption|]. intros w Hw.
  destruct (Hp w Hw) as [Hfly Hland]. split.
  - intros Hin. apply Hfly. apply in_app_or in Hin. apply in_or_app. tauto.
  - intros Hout. apply Hland. intros Hin. apply Hout.
    apply in_app_or in Hin. apply in_or_app. tauto.
Qed.

(** A handler that takes a step stays apart from the other one. *)
Lemma apart_step b s b' s' t h h' db :
  Body.word b = JString s ->
  serving b s h db -> serving b' s' h' db -> apart h h' ->
  apart (fst (handler_step t h db)) h'.
Proof.
  intros Hw Hs Hs' Hap i j Hi Hj.
  destruct (handler_step_serving b s t h db Hw Hs) as (_ & _ & _ & Hnew).
  destruct (Hnew i Hi) as [Hold|Hfresh].
  - now apply Hap.
  - destruct (serving_held _ _ _ _ _ Hs' Hj) as (w & Hin & <-).
    specialize (Hfresh w Hin). lia.
Qed.

Lemma word_tracked_same_progress exact db db' w :
  progress db' = progress db ->
  word_tracked exact db w -> word_tracked exact db' w.
Proof.
  intros Heq (p & Hp & H). exists p. split; [|exact H].
  unfold progress_of in *. now rewrite Heq.
Qed.

(** One statement of a racing handler keeps the pairing of words and
    progress rows: the word INSERT puts a word in flight, the progress
    INSERT lands it. *)
Lemma paired_step b s b' s' t h h' db :
  Body.word b = JString s ->
  serving b s h db -> serving b' s' h' db -> apart h h' ->
  paired_but h h' db ->
  paired_but (fst (handler_step t h db)) h' (snd (handler_step t h db)).
Proof.
  intros Hw Hs Hs' Hap [Hown Hp].
  destruct h as [b0|info|r].
  - (* the word INSERT *)
    cbn in Hs. subst b0. unfold handler_step. rewrite Hw. cbn [bind_param].
    rewrite insert_word_some. cbn [fst snd].
    set (i := next_rowid Words.id (seq_words db) (words db)).
    split.
    + intros p Hin. cbn [progress words] in *.
      destruct (Hown p Hin) as (w & Hin' & Hpw).
      exists w. split; [apply in_or_app; now left | assumption].
    + intros w Hin. cbn [words] in Hin. cbn [in_flight lastInsertRowid app].
      apply in_app_or in Hin. destruct Hin as [Hin|[<-|[]]].
      * pose proof (next_rowid_fresh Words.id (seq_words db) _ _ Hin) as Hlt.
        fold i in Hlt. destruct (Hp w Hin) as [Hfly Hland].
        cbn [in_flight app] in Hfly, Hland. split.
        -- intros [Heq|Hf]; [lia|]. now apply Hfly.
        -- intros Hout. eapply word_tracked_same_progress; [reflexivity|].
           apply Hland. intros Hf. apply Hout. now right.
      * cbn [Words.id]. split; [|intros Hout; exfalso; apply Hout; now left].
        intros _. unfold progress_of. cbn [progress].
        apply filter_none. intros p Hin.
        destruct (Hown p Hin) as (w & Hin' & ->).
        pose proof (next_rowid_fresh Words.id (seq_words db) _ _ Hin') as Hlt.
        fold i in Hlt. apply Z.eqb_neq. lia.
  - (* the progress INSERT *)
    cbn in Hs. destruct Hs as [t' Ht'].
    unfold handler_step. rewrite insert_progress_ok
      by (eexists; split; [exact Ht' | reflexivity]).
    cbn [fst snd].
    set (i := lastInsertRowid info) in *.
    set (k := next_rowid Progress.id (seq_progress db) (progress db)).
    assert (Hnot : ~ In i (in_flight h')).
    { intros Hin. apply in_flight_held in Hin. now apply (Hap i i). }
    split.
    + intros p Hin. cbn [progress words] in *.
      apply in_app_or in Hin. destruct Hin as [Hin|[<-|[]]].
      * now apply Hown.
      * eexists. split; [exact Ht' | reflexivity].
    + intros w Hin. cbn [words] in Hin.
      destruct (Hp w Hin) as [Hfly Hland].
      cbn [in_flight app] in Hfly, Hland |- *. fold i in Hfly, Hland.
      unfold word_tracked, progress_of. cbn [progress].
      rewrite filter_app. cbn [filter Progress.word_id progress_row].
      destruct (i =? Words.id w) eqn:E.
      * apply Z.eqb_eq in E. split; [intros Hf; rewrite <- E in Hf; tauto|].
        intros _. exists (progress_row k i t).
        unfold progress_of in Hfly. rewrite Hfly by now left.
        split; [reflexivity|]. split; [reflexivity|].
        split; [discriminate|discriminate].
      * apply Z.eqb_neq in E. rewrite app_nil_r. split.
        -- intros Hf. apply Hfly. now right.
        -- intros Hout. apply Hland. intros [Heq|Hf]; [lia|tauto].
  - (* already answered *)
    cbn [handler_step fst snd]. now split.
Qed.

Section RacePairing.

Variables (b1 b2 : Body.t) (s1 s2 : string).
Hypothesis Hw1 : Body.word b1 = JString s1.
Hypothesis Hw2 : Body.word b2 = JString s2.

Lemma race_paired sched :
  forall h1 h2 db,
    serving b1 s1 h1 db -> serving b2 s2 h2 db -> apart h1 h2 ->
    paired_but h1 h2 db ->
    let '(h1', h2', db') := race sched h1 h2 db in
    paired_but h1' h2' db'.
Proof.
  induction sched as [|[[|] t] sched IH]; intros h1 h2 db Hs1 Hs2 Hap Hp.
  - exact Hp.
  - cbn [race].
    pose proof (paired_step b1 s1 b2 s2 t h1 h2 db Hw1 Hs1 Hs2 Hap Hp) as Hp'.
    pose proof (apart_step b1 s1 b2 s2 t h1 h2 db Hw1 Hs1 Hs2 Hap) as Hap'.
    destruct (handler_step_serving b1 s1 t h1 db Hw1 Hs1)
      as (Hs1' & _ & Hgrow & _).
    destruct (handler_step t h1 db) as [h1' db1]. cbn [fst snd] in *.
    apply IH; try assumption. now apply (serving_grows _ _ _ _ _ Hs2).
  - cbn [race].
    pose proof (paired_step b2 s2 b1 s1 t h2 h1 db Hw2 Hs2 Hs1
                  (apart_sym _ _ Hap) (paired_but_sym _ _ _ Hp)) as Hp'.
    pose proof (apart_step b2 s2 b1 s1 t h2 h1 db Hw2 Hs2 Hs1
                  (apart_sym _ _ Hap)) as Hap'.
    destruct (handler_step_serving b2 s2 t h2 db Hw2 Hs2)
      as (Hs2' & _ & Hgrow & _).
    destruct (handler_step t h2 db) as [h2' db1]. cbn [fst snd] in *.
    apply IH; try assumption.
    + now apply (serving_grows _ _ _ _ _ Hs1).
    + now apply apart_sym.
    + now apply paired_but_sym.
Qed.

End RacePairing.

(** Two racing [POST /api/words] requests, their statements interleaved
    in any order in which each runs both of its own, keep the pairing of
    the store: if every word had exactly one progress row before, new and
    due, so has every word afterwards, the two created ones included. *)
Theorem racing_creates_keep_words_paired b1 s1 b2 s2 sched db :
  Body.word b1 = JString s1 -> Body.word b2 = JString s2 ->
  (2 <= turns_of_first sched)%nat -> (2 <= turns_of_second sched)%nat ->
  tracked false db ->
  forall w,
    In w (words (snd (race sched (Received b1) (Received b2) db))) ->
    exists p,
      progress_of (snd (race sched (Received b1) (Received b2) db))
                  (Words.id w) = [p] /\
      Progress.status p = Some "new" /\
      Progress.next_review p <> None.
Proof.
  intros Hw1 Hw2 Hn1 Hn2 [Hown Htr].
  pose proof (race_invariant b1 b2 s1 s2 Hw1 Hw2 sched
                (Received b1) (Received b2) db eq_refl eq_refl) as Hinv.
  pose proof (race_paired b1 b2 s1 s2 Hw1 Hw2 sched
                (Received b1) (Received b2) db eq_refl eq_refl) as Hpair.
  destruct (race sched (Received b1) (Received b2) db) as [[h1 h2] db'].
  destruct Hinv as (Hs1 & Hs2 & _ & Hp1 & Hp2); [intros i j [=]|].
  cbn [pending] in Hp1, Hp2.
  destruct (serving_done _ _ _ _ Hs1) as (i1 & u1 & -> & _); [lia|].
  destruct (serving_done _ _ _ _ Hs2) as (i2 & u2 & -> & _); [lia|].
  destruct Hpair as [_ Hall].
  - intros i j [=].
  - split; [assumption|]. intros w Hw. split; [intros []|].
    intros _. now apply Htr.
  - cbn [snd]. intros w Hw. destruct (Hall w Hw) as [_ Hland].
    destruct Hland as (p & Hp & Hst & Hnr & _); [intros []|].
    now exists p.
Qed.

Lemma racing_creates_keep_words_paired_witness :
  exists p,
    progress_of (snd (race overtaking (Received (text_body "beta"))
                           (Received (text_body "gamma")) alpha_store))
                2 = [p] /\
    Progress.status p = Some "new" /\
    Progress.next_review p <> None.
Proof.
  apply (racing_creates_keep_words_paired
           (text_body "beta") "beta" (text_body "gamma") "gamma"
           overtaking alpha_store
           eq_refl eq_refl)
    with (w := word_row (text_body "beta") "beta" 2 1000).
  - vm_compute. lia.
  - vm_compute. lia.
  - apply (tracked_create_word false alpha_request empty_store
             (tracked_empty false)).
    discriminate.
  - vm_compute. right. left. reflexivity.
Defined.

(** * The WAV container of [playAudio] *)

(** The header, byte by byte: only the two size fields depend on the
    audio. *)
Lemma wav_header_bytes n :
  wav_header n =
  Some [82; 73; 70; 70;
        byte_at 0 ((36 + n) mod 2 ^ 32); byte_at 1 ((36 + n) mod 2 ^ 32);
        byte_at 2 ((36 + n) mod 2 ^ 32); byte_at 3 ((36 + n) mod 2 ^ 32);
        87; 65; 86; 69;
        102; 109; 116; 32;
        16; 0; 0; 0;
        1; 0;
        1; 0;
        192; 93; 0; 0;
        128; 187; 0; 0;
        2; 0;
        16; 0;
        100; 97; 116; 97;
        byte_at 0 (n mod 2 ^ 32); byte_at 1 (n mod 2 ^ 32);
        byte_at 2 (n mod 2 ^ 32); byte_at 3 (n mod 2 ^ 32)].
Proof.
  reflexivity.
Qed.

Lemma byte_at_range k u : 0 <= byte_at k u < 256.
Proof. unfold byte_at. apply Z.mod_pos_bound. lia. Qed.

(** Four little-endian bytes of a 32-bit value put together again. *)
Lemma le32_roundtrip u :
  0 <= u < 2 ^ 32 ->
  byte_at 0 u + 2 ^ 8 * byte_at 1 u + 2 ^ 16 * byte_at 2 u +
  2 ^ 24 * byte_at 3 u = u.
Proof.
  intros Hu. unfold byte_at.
  change (256 ^ Z.of_nat 0) with 1. change (256 ^ Z.of_nat 1) with 256.
  change (256 ^ Z.of_nat 2) with 65536.
  change (256 ^ Z.of_nat 3) with 16777216.
  change (2 ^ 8) with 256. change (2 ^ 16) with 65536.
  change (2 ^ 24) with 16777216. change (2 ^ 32) with 4294967296 in Hu.
  Z.div_mod_to_equations. lia.
Qed.

(** Building the header never leaves the 44-byte buffer, whatever the
    length of the audio: no [RangeError], 44 bytes, each a byte. *)
Theorem wav_header_is_44_bytes n :
  exists header,
    wav_header n = Some header /\
    List.length header = 44%nat /\
    Forall (fun b => 0 <= b < 256) header.
Proof.
  eexists. split; [apply wav_header_bytes|]. split; [reflexivity|].
  repeat (constructor; [first [apply byte_at_range | lia]|]). constructor.
Qed.

(** The two size fields of the header, read back little-endian: the RIFF
    chunk size is 36 more than the number of audio bytes and the data
    chunk size is that number, both modulo 2^32. *)
Theorem wav_header_size_fields n :
  exists header,
    wav_header n = Some header /\
    getUint32 4 header = Some ((36 + n) mod 2 ^ 32) /\
    getUint32 40 header = Some (n mod 2 ^ 32).
Proof.
  eexists. split; [apply wav_header_bytes|].
  split.
  - transitivity
      (Some (byte_at 0 ((36 + n) mod 2 ^ 32) +
             2 ^ 8 * byte_at 1 ((36 + n) mod 2 ^ 32) +
             2 ^ 16 * byte_at 2 ((36 + n) mod 2 ^ 32) +
             2 ^ 24 * byte_at 3 ((36 + n) mod 2 ^ 32))); [reflexivity|].
    f_equal. apply le32_roundtrip, Z.mod_pos_bound. lia.
  - transitivity
      (Some (byte_at 0 (n mod 2 ^ 32) + 2 ^ 8 * byte_at 1 (n mod 2 ^ 32) +
             2 ^ 16 * byte_at 2 (n mod 2 ^ 32) +
             2 ^ 24 * byte_at 3 (n mod 2 ^ 32))); [reflexivity|].
    f_equal. apply le32_roundtrip, Z.mod_pos_bound. lia.
Qed.

Lemma in_view_bounds off size view :
  in_view off size view = true ->
  0 <= off /\ off + size <= Z.of_nat (List.length view).
Proof.
  unfold in_view. rewrite andb_true_iff, !Z.leb_le. tauto.
Qed.

Lemma in_view_app off size h rest :
  in_view off size h = true -> in_view off size (h ++ rest) = true.
Proof.
  intros H. apply in_view_bounds in H. unfold in_view.
  rewrite andb_true_iff, !Z.leb_le, length_app. lia.
Qed.

Lemma nth_in_view off size h rest (k : nat) :
  in_view off size h = true -> Z.of_nat k < size ->
  nth (Z.to_nat off + k) (h ++ rest) 0 = nth (Z.to_nat off + k) h 0.
Proof.
  intros H Hk. apply in_view_bounds in H. apply app_nth1. lia.
Qed.

Lemma getUint32_app off h rest :
  in_view off 4 h = true -> getUint32 off (h ++ rest) = getUint32 off h.
Proof.
  intros H. unfold getUint32. rewrite H, (in_view_app _ _ _ rest H).
  pose proof (nth_in_view off 4 h rest 0 H) as H0.
  pose proof (nth_in_view off 4 h rest 1 H) as H1.
  pose proof (nth_in_view off 4 h rest 2 H) as H2.
  pose proof (nth_in_view off 4 h rest 3 H) as H3.
  rewrite Nat.add_0_r in H0.
  replace (Z.to_nat off + 1)%nat with (S (Z.to_nat off)) in H1 by lia.
  replace (Z.to_nat off + 2)%nat with (S (S (Z.to_nat off))) in H2 by lia.
  replace (Z.to_nat off + 3)%nat with (S (S (S (Z.to_nat off)))) in H3 by lia.
  cbv zeta. rewrite H0, H1, H2, H3 by lia. reflexivity.
Qed.

Lemma getUint16_app off h rest :
  in_view off 2 h = true -> getUint16 off (h ++ rest) = getUint16 off h.
Proof.
  intros H. unfold getUint16. rewrite H, (in_view_app _ _ _ rest H).
  pose proof (nth_in_view off 2 h rest 0 H) as H0.
  pose proof (nth_in_view off 2 h rest 1 H) as H1.
  rewrite Nat.add_0_r in H0.
  replace (Z.to_nat off + 1)%nat with (S (Z.to_nat off)) in H1 by lia.
  cbv zeta. rewrite H0, H1 by lia. reflexivity.
Qed.

Lemma getTag_app off h rest :
  in_view off 4 h = true -> getTag off (h ++ rest) = getTag off h.
Proof.
  intros H. unfold getTag. rewrite H, (in_view_app _ _ _ rest H).
  cbv zeta.
  rewrite (nth_in_view off 4 h rest 0 H), (nth_in_view off 4 h rest 1 H),
    (nth_in_view off 4 h rest 2 H), (nth_in_view off 4 h rest 3 H) by lia.
  reflexivity.
Qed.

Lemma in_view_44 off size (h : buffer) :
  List.length h = 44%nat -> 0 <= off -> off + size <= 44 ->
  in_view off size h = true.
Proof.
  intros Hl H0 H1. unfold in_view. rewrite Hl, andb_true_iff, !Z.leb_le. lia.
Qed.

(** Only the first 44 bytes of a file are header. *)
Lemma read_wav_app h rest :
  List.length h = 44%nat ->
  read_wav (h ++ rest) =
  match read_wav h with
  | Some (fields, _) => Some (fields, rest)
  | None => None
  end.
Proof.
  intros Hl. unfold read_wav.
  rewrite !getTag_app, !getUint32_app, !getUint16_app
    by (apply in_view_44; [assumption | lia | lia]).
  rewrite skipn_app, Hl, Nat.sub_diag, skipn_all2 by lia.
  cbn [skipn app].
  repeat match goal with
         | |- context [match ?m with Some _ => _ | None => _ end] =>
             destruct m; [|reflexivity]
         end.
  reflexivity.
Qed.

(** What a player reads in the file [playAudio] builds, when the file is
    below 4 GiB: a RIFF/WAVE file whose RIFF chunk spans the file but for
    its first 8 bytes, holding uncompressed PCM, mono, 24000 samples a
    second of 16 bits, hence 2 bytes a frame and 48000 bytes a second, and
    whose data chunk is the samples as they were received. *)
Theorem wav_blob_reads_back pcmData :
  Z.of_nat (List.length pcmData) + 36 < 2 ^ 32 ->
  exists file,
    wav_blob pcmData = Some file /\
    List.length file = (44 + List.length pcmData)%nat /\
    read_wav file =
      Some ({| riff_tag := "RIFF";
               riff_size := Z.of_nat (List.length file) - 8;
               wave_tag := "WAVE";
               fmt_tag := "fmt ";
               fmt_size := 16;
               audio_format := 1;
               channels := 1;
               sample_rate := 24000;
               byte_rate := 24000 * 2;
               block_align := 2;
               bits_per_sample := 16;
               data_tag := "data";
               data_size := Z.of_nat (List.length pcmData) |},
            pcmData).
Proof.
  intros Hsize. unfold wav_blob. rewrite wav_header_bytes.
  set (n := Z.of_nat (List.length pcmData)) in *.
  eexists. split; [reflexivity|]. split; [now rewrite length_app|].
  rewrite read_wav_app by reflexivity.
  rewrite length_app. cbn [List.length].
  replace (Z.of_nat (44 + List.length pcmData) - 8) with (36 + n) by lia.
  assert (Hu : 0 <= 36 + n < 2 ^ 32) by lia.
  assert (Hv : 0 <= n < 2 ^ 32) by lia.
  rewrite (Z.mod_small _ _ Hu), (Z.mod_small _ _ Hv).
  pose proof (le32_roundtrip _ Hu) as Eu.
  pose proof (le32_roundtrip _ Hv) as Ev.
  revert Eu Ev.
  generalize (byte_at 0 (36 + n)), (byte_at 1 (36 + n)),
    (byte_at 2 (36 + n)), (byte_at 3 (36 + n)),
    (byte_at 0 n), (byte_at 1 n), (byte_at 2 n), (byte_at 3 n).
  intros u0 u1 u2 u3 v0 v1 v2 v3 <- <-.
  reflexivity.
Qed.

Lemma wav_blob_reads_back_witness :
  exists file,
    wav_blob [1; 2; 3; 4] = Some file /\
    List.length file = 48%nat /\
    read_wav file =
      Some ({| riff_tag := "RIFF";
               riff_size := Z.of_nat (List.length file) - 8;
               wave_tag := "WAVE";
               fmt_tag := "fmt ";
               fmt_size := 16;
               audio_format := 1;
               channels := 1;
               sample_rate := 24000;
               byte_rate := 24000 * 2;
               block_align := 2;
               bits_per_sample := 16;
               data_tag := "data";
               data_size := 4 |},
            [1; 2; 3; 4]).
Proof.
  apply (wav_blob_reads_back [1; 2; 3; 4]). cbn. lia.
Defined.

(** * The subtitle player *)

(** ** Previous and next *)

(** With at least one segment and a current index that is not negative,
    both buttons land on the index of a segment, even when the current
    index was beyond the last one. *)
Theorem navigation_lands_on_a_segment currentSubIndex length :
  0 <= currentSubIndex -> 0 < length ->
  0 <= next_index currentSubIndex length < length /\
  0 <= previous_index currentSubIndex length < length.
Proof.
  intros Hc Hl. unfold next_index, previous_index.
  rewrite !Z.rem_mod_nonneg by lia.
  split; apply Z.mod_pos_bound; lia.
Qed.

Lemma navigation_lands_on_a_segment_witness :
  0 <= next_index 5 3 < 3 /\ 0 <= previous_index 5 3 < 3.
Proof. apply (navigation_lands_on_a_segment 5 3); lia. Defined.

(** On the index of a segment the two buttons undo each other, and they
    wrap around: next of the last segment is the first, previous of the
    first is the last. *)
Theorem previous_and_next_are_inverse currentSubIndex length :
  0 <= currentSubIndex < length ->
  previous_index (next_index currentSubIndex length) length = currentSubIndex /\
  next_index (previous_index currentSubIndex length) length = currentSubIndex /\
  next_index (length - 1) length = 0 /\
  previous_index 0 length = length - 1.
Proof.
  intros Hc. unfold next_index, previous_index.
  assert (Hn : Z.rem (currentSubIndex + 1) length =
               (currentSubIndex + 1) mod length)
    by (apply Z.rem_mod_nonneg; lia).
  assert (Hp : Z.rem (currentSubIndex - 1 + length) length =
               (currentSubIndex - 1 + length) mod length)
    by (apply Z.rem_mod_nonneg; lia).
  rewrite Hn, Hp.
  assert (Hn0 : 0 <= (currentSubIndex + 1) mod length < length)
    by (apply Z.mod_pos_bound; lia).
  assert (Hp0 : 0 <= (currentSubIndex - 1 + length) mod length < length)
    by (apply Z.mod_pos_bound; lia).
  rewrite !Z.rem_mod_nonneg by lia.
  replace (length - 1 + 1) with length by lia.
  rewrite Z.mod_same by lia.
  replace (0 - 1 + length) with (length - 1) by lia.
  rewrite (Z.mod_small (length - 1)) by lia.
  repeat split.
  - destruct (Z.eq_dec (currentSubIndex + 1) length) as [E|E].
    + rewrite E, Z.mod_same by lia.
      replace (0 - 1 + length) with (length - 1) by lia.
      rewrite Z.mod_small by lia. lia.
    + rewrite (Z.mod_small (currentSubIndex + 1)) by lia.
      replace (currentSubIndex + 1 - 1 + length)
        with (currentSubIndex + 1 * length) by lia.
      rewrite Z.mod_add by lia. apply Z.mod_small. lia.
  - destruct (Z.eq_dec currentSubIndex 0) as [E|E].
    + subst. replace (0 - 1 + length) with (length - 1) by lia.
      rewrite (Z.mod_small (length - 1)) by lia.
      replace (length - 1 + 1) with length by lia. apply Z.mod_same. lia.
    + replace (currentSubIndex - 1 + length)
        with (currentSubIndex - 1 + 1 * length) by lia.
      rewrite Z.mod_add by lia.
      rewrite (Z.mod_small (currentSubIndex - 1)) by lia.
      replace (currentSubIndex - 1 + 1) with currentSubIndex by lia.
      apply Z.mod_small. lia.
Qed.

Lemma previous_and_next_are_inverse_witness :
  previous_index (next_index 2 3) 3 = 2 /\
  next_index (previous_index 2 3) 3 = 2 /\
  next_index (3 - 1) 3 = 0 /\
  previous_index 0 3 = 3 - 1.
Proof. apply (previous_and_next_are_inverse 2 3). lia. Defined.

(** ** Following the video *)

Section VideoProgressFacts.

Variable number : Type.
Variable number_le : number -> number -> bool.
Variable timeToSeconds : string -> number.

Local Notation "'has_started'" := (started number number_le timeToSeconds).
Local Notation "'loop'" := (best_index number number_le timeToSeconds).
Local Notation "'progress_to'" :=
  (handleProgress number number_le timeToSeconds).

(** The loop runs over the segments that have started, up to the first
    one that has not, and keeps the index of the last one it ran over. *)
Lemma best_index_spec subs : forall i bestIndex currentTime,
  exists before after,
    subs = before ++ after /\
    Forall (fun s => has_started currentTime s = true) before /\
    match after with
    | [] => True
    | s :: _ => has_started currentTime s = false
    end /\
    loop subs i bestIndex currentTime =
      match before with
      | [] => bestIndex
      | _ :: _ => i + Z.of_nat (List.length before) - 1
      end.
Proof.
  induction subs as [|s rest IH]; intros i b t.
  - exists [], []. repeat split. constructor.
  - cbn [best_index].
    destruct (has_started t s) eqn:Hs.
    + destruct (IH (i + 1) i t) as (before & after & -> & Hall & Hhd & Hbest).
      exists (s :: before), after.
      split; [reflexivity|]. split; [now constructor|]. split; [assumption|].
      rewrite Hbest. destruct before; cbn [List.length]; lia.
    + exists [], (s :: rest). repeat split; [constructor | assumption].
Qed.

Lemma handleProgress_best s rest currentSubIndex playedSeconds :
  progress_to (s :: rest) currentSubIndex playedSeconds =
  loop (s :: rest) 0 0 playedSeconds.
Proof.
  unfold handleProgress.
  destruct (_ =? _) eqn:E; [|reflexivity].
  apply Z.eqb_eq in E. now symmetry.
Qed.

End VideoProgressFacts.

Lemma handleProgress_prefix
    (number : Type) (number_le : number -> number -> bool)
    (timeToSeconds : string -> number)
    videoSubtitles currentSubIndex playedSeconds :
  videoSubtitles <> [] ->
  exists before after,
    videoSubtitles = before ++ after /\
    Forall (fun s => started number number_le timeToSeconds playedSeconds s
                     = true) before /\
    match after with
    | [] => True
    | s :: _ => started number number_le timeToSeconds playedSeconds s = false
    end /\
    handleProgress number number_le timeToSeconds
      videoSubtitles currentSubIndex playedSeconds =
    Z.max 0 (Z.of_nat (List.length before) - 1).
Proof.
  destruct videoSubtitles as [|s rest]; [congruence|]. intros _.
  rewrite handleProgress_best.
  destruct (best_index_spec number number_le timeToSeconds (s :: rest)
              0 0 playedSeconds) as (before & after & Heq & Hall & Hhd & ->).
  exists before, after. repeat split; try assumption.
  destruct before; cbn [List.length]; lia.
Qed.

(** With at least one segment, [handleProgress] leaves the index of a
    segment in [currentSubIndex], whatever index was there before and
    whatever the player reports. *)
Theorem handleProgress_shows_a_segment
    (number : Type) (number_le : number -> number -> bool)
    (timeToSeconds : string -> number)
    videoSubtitles currentSubIndex playedSeconds :
  videoSubtitles <> [] ->
  0 <= handleProgress number number_le timeToSeconds
         videoSubtitles currentSubIndex playedSeconds
    < Z.of_nat (List.length videoSubtitles) /\
  handleProgress number number_le timeToSeconds
    videoSubtitles currentSubIndex playedSeconds =
  handleProgress number number_le timeToSeconds
    videoSubtitles 0 playedSeconds.
Proof.
  destruct videoSubtitles as [|s rest]; [congruence|]. intros _.
  rewrite !handleProgress_best.
  destruct (best_index_spec number number_le timeToSeconds (s :: rest)
              0 0 playedSeconds) as (before & after & Heq & _ & _ & ->).
  split; [|reflexivity].
  apply (f_equal (@List.length _)) in Heq. rewrite length_app in Heq.
  cbn [List.length] in Heq.
  destruct before; cbn [List.length] in *; lia.
Qed.

Lemma handleProgress_shows_a_segment_witness :
  0 <= handleProgress Z Z.leb lesson_seconds lesson 7 13 < 3 /\
  handleProgress Z Z.leb lesson_seconds lesson 7 13 =
  handleProgress Z Z.leb lesson_seconds lesson 0 13.
Proof.
  apply (handleProgress_shows_a_segment Z Z.leb lesson_seconds lesson 7 13).
  discriminate.
Defined.

(** [handleProgress] goes through the segments in order and stops at the
    first one that has not started: it selects the last segment before
    that one, or the first segment when not even that has started.  A
    segment that has started but comes after one that has not is never
    selected. *)
Theorem handleProgress_stops_at_first_unstarted
    (number : Type) (number_le : number -> number -> bool)
    (timeToSeconds : string -> number)
    videoSubtitles currentSubIndex playedSeconds :
  videoSubtitles <> [] ->
  exists before after,
    videoSubtitles = before ++ after /\
    Forall (fun s => started number number_le timeToSeconds playedSeconds s
                     = true) before /\
    match after with
    | [] => True
    | s :: _ => started number number_le timeToSeconds playedSeconds s = false
    end /\
    handleProgress number number_le timeToSeconds
      videoSubtitles currentSubIndex playedSeconds =
    Z.max 0 (Z.of_nat (List.length before) - 1).
Proof.
  destruct videoSubtitles as [|s rest]; [congruence|]. intros _.
  rewrite handleProgress_best.
  destruct (best_index_spec number number_le timeToSeconds (s :: rest)
              0 0 playedSeconds) as (before & after & Heq & Hall & Hhd & ->).
  exists before, after. repeat split; try assumption.
  destruct before; cbn [List.length]; lia.
Qed.

Lemma handleProgress_stops_at_first_unstarted_witness :
  exists before after,
    lesson = before ++ after /\
    Forall (fun s => started Z Z.leb lesson_seconds 13 s = true) before /\
    match after with
    | [] => True
    | s :: _ => started Z Z.leb lesson_seconds 13 s = false
    end /\
    handleProgress Z Z.leb lesson_seconds lesson 0 13 =
    Z.max 0 (Z.of_nat (List.length before) - 1).
Proof.
  apply (handleProgress_stops_at_first_unstarted
           Z Z.leb lesson_seconds lesson 0 13).
  discriminate.
Defined.

(** When the segments are in the order of their times, the segments that
    have started are exactly a first stretch of the list, and
    [handleProgress] selects the last of them: the segment being spoken.
    Before the first segment starts it selects the first. *)
Theorem handleProgress_on_ordered_times
    (number : Type) (number_le : number -> number -> bool)
    (timeToSeconds : string -> number)
    videoSubtitles currentSubIndex playedSeconds :
  (forall a b c, number_le a b = true -> number_le b c = true ->
                 number_le a c = true) ->
  StronglySorted
    (fun a b => number_le (timeToSeconds (Subtitle.time a))
                          (timeToSeconds (Subtitle.time b)) = true)
    videoSubtitles ->
  videoSubtitles <> [] ->
  exists before after,
    videoSubtitles = before ++ after /\
    Forall (fun s => started number number_le timeToSeconds playedSeconds s
                     = true) before /\
    Forall (fun s => started number number_le timeToSeconds playedSeconds s
                     = false) after /\
    handleProgress number number_le timeToSeconds
      videoSubtitles currentSubIndex playedSeconds =
    Z.max 0 (Z.of_nat (List.length before) - 1).
Proof.
  intros Htrans Hsorted Hne.
  destruct (handleProgress_prefix number number_le
              timeToSeconds videoSubtitles currentSubIndex playedSeconds Hne)
    as (before & after & Heq & Hall & Hhd & Hres).
  exists before, after. repeat split; try assumption.
  destruct after as [|s after]; [constructor|].
  constructor; [assumption|].
  subst videoSubtitles.
  assert (Hs : StronglySorted
                 (fun a b => number_le (timeToSeconds (Subtitle.time a))
                               (timeToSeconds (Subtitle.time b)) = true)
                 (s :: after)).
  { clear - Hsorted. induction before as [|x before IH]; [assumption|].
    apply IH. cbn in Hsorted. now inversion Hsorted. }
  inversion Hs as [|? ? _ Hlater]; subst.
  rewrite Forall_forall in Hlater |- *. intros r Hr.
  destruct (started number number_le timeToSeconds playedSeconds r) eqn:E;
    [|reflexivity].
  unfold started in *.
  rewrite (Htrans _ _ _ (Hlater r Hr) E) in Hhd. discriminate.
Qed.

Lemma handleProgress_on_ordered_times_witness :
  exists before after,
    lesson = before ++ after /\
    Forall (fun s => started Z Z.leb lesson_seconds 13 s = true) before /\
    Forall (fun s => started Z Z.leb lesson_seconds 13 s = false) after /\
    handleProgress Z Z.leb lesson_seconds lesson 0 13 =
    Z.max 0 (Z.of_nat (List.length before) - 1).
Proof.
  apply (handleProgress_on_ordered_times Z Z.leb lesson_seconds lesson 0 13).
  - intros a b c Hab Hbc. apply Z.leb_le in Hab, Hbc. apply Z.leb_le. lia.
  - repeat constructor.
  - discriminate.
Defined.

(** * Texts *)

(** ** Splitting *)

Lemma split_not_nil sep text : split sep text <> [].
Proof.
  destruct text as [|c text]; cbn; [discriminate|].
  destruct (Ascii.eqb c sep); [discriminate|].
  destruct (split sep text); discriminate.
Qed.

(** A text without the separator is one stretch. *)
Lemma split_without sep text :
  ~ In sep (chars text) -> split sep text = [text].
Proof.
  induction text as [|c text IH]; cbn; [reflexivity|]. intros Hn.
  destruct (Ascii.eqb c sep) eqn:E.
  - apply Ascii.eqb_eq in E. tauto.
  - rewrite IH by tauto. reflexivity.
Qed.

(** The first stretch ends at the first separator. *)
Lemma split_at_first sep before rest :
  ~ In sep (chars before) ->
  split sep (String.append before (String sep rest)) = before :: split sep rest.
Proof.
  induction before as [|c before IH]; cbn; intros Hn.
  - now rewrite Ascii.eqb_refl.
  - destruct (Ascii.eqb c sep) eqn:E.
    + apply Ascii.eqb_eq in E. tauto.
    + rewrite IH by tauto. reflexivity.
Qed.

Lemma concat_cons sep w ws :
  ws <> [] ->
  String.concat sep (w :: ws) =
  String.append w (String.append sep (String.concat sep ws)).
Proof. destruct ws; [congruence | reflexivity]. Qed.

(** No stretch contains the separator. *)
Lemma split_no_sep sep text :
  Forall (fun w => ~ In sep (chars w)) (split sep text).
Proof.
  induction text as [|c text IH]; cbn [split].
  - constructor; [cbn; tauto | constructor].
  - destruct (Ascii.eqb c sep) eqn:E.
    + constructor; [cbn; tauto | assumption].
    + destruct (split sep text) as [|w ws]; [repeat constructor; cbn|].
      * intros [Hc|[]]. subst c. now rewrite Ascii.eqb_refl in E.
      * inversion IH; subst. constructor; [|assumption].
        cbn. intros [Hc|Hin]; [|tauto].
        subst c. now rewrite Ascii.eqb_refl in E.
Qed.

(** The clickable words of a subtitle, put together again with single
    spaces, are the subtitle: nothing is lost or added between words.
    There is one word more than there are spaces, so two spaces in a row
    give an empty word; and no word contains a space. *)
Theorem subtitle_words_rejoin text :
  String.concat " " (subtitle_words text) = text /\
  List.length (subtitle_words text) =
    S (List.length (filter (Ascii.eqb " "%char) (chars text))) /\
  Forall (fun w => ~ In " "%char (chars w)) (subtitle_words text).
Proof.
  unfold subtitle_words.
  assert (H : String.concat " " (split " "%char text) = text /\
              List.length (split " "%char text) =
              S (List.length (filter (Ascii.eqb " "%char) (chars text)))).
  { induction text as [|c text (IHc & IHl)]; [now split|].
    cbn [split chars list_ascii_of_string filter].
    rewrite (Ascii.eqb_sym " "%char c).
    destruct (Ascii.eqb c " "%char) eqn:E.
    - apply Ascii.eqb_eq in E. subst c. split.
      + rewrite concat_cons by apply split_not_nil. cbn. now rewrite IHc.
      + cbn [List.length]. now rewrite IHl.
    - pose proof (split_not_nil " "%char text) as Hne.
      destruct (split " "%char text) as [|w ws]; [congruence|].
      split; [|exact IHl].
      destruct ws as [|w' ws].
      + cbn in *. now rewrite IHc.
      + rewrite concat_cons by discriminate.
        rewrite concat_cons in IHc by discriminate.
        cbn [String.append] in IHc |- *. now rewrite IHc. }
  destruct H as [Hc Hl]. split; [exact Hc|]. split; [exact Hl|].
  apply split_no_sep.
Qed.

(** ** Cleaning a clicked word *)

Lemma cleanWord_chars word :
  chars (cleanWord word) = filter (fun c => negb (is_mark c)) (chars word).
Proof.
  induction word as [|c word IH]; [reflexivity|].
  cbn [cleanWord chars list_ascii_of_string filter].
  destruct (is_mark c); cbn; [exact IH | now f_equal].
Qed.

(** The word sent for analysis when a word of a subtitle is clicked holds
    no space and none of the marks [. , ! ?]; it keeps every other
    character in place, so a word without marks is sent as it is; and it
    is empty exactly when the clicked word was made of marks only, an
    empty word between two spaces included. *)
Theorem clicked_word_is_bare text word :
  In word (subtitle_words text) ->
  (forall c, In c (chars (cleanWord word)) ->
     c <> " "%char /\ is_mark c = false) /\
  chars (cleanWord word) = filter (fun c => negb (is_mark c)) (chars word) /\
  ((forall c, In c (chars word) -> is_mark c = false) ->
   cleanWord word = word) /\
  (cleanWord word = EmptyString <->
   forall c, In c (chars word) -> is_mark c = true).
Proof.
  intros Hin.
  pose proof (split_no_sep " "%char text) as Hsp.
  rewrite Forall_forall in Hsp. specialize (Hsp word Hin).
  split; [|split; [apply cleanWord_chars|split]].
  - intros c Hc. rewrite cleanWord_chars in Hc. apply filter_In in Hc.
    destruct Hc as [Hc Hm]. apply negb_true_iff in Hm.
    split; [|assumption]. intros ->. contradiction.
  - clear. induction word as [|c word IH]; [reflexivity|]. intros H.
    cbn [cleanWord]. rewrite (H c) by now left.
    f_equal. apply IH. intros d Hd. apply H. now right.
  - clear. induction word as [|c word IH]; cbn [cleanWord chars
      list_ascii_of_string]; [split; [intros _ ? []|reflexivity]|].
    destruct (is_mark c) eqn:E.
    + rewrite IH. split.
      * intros H d [<-|Hd]; [assumption | now apply H].
      * intros H d Hd. apply H. now right.
    + split; [discriminate|]. intros H.
      rewrite (H c) in E by now left. discriminate.
Qed.

Lemma clicked_word_is_bare_witness :
  (forall c, In c (chars (cleanWord "cake,")) ->
     c <> " "%char /\ is_mark c = false) /\
  chars (cleanWord "cake,") =
    filter (fun c => negb (is_mark c)) (chars "cake,") /\
  ((forall c, In c (chars "cake,") -> is_mark c = false) ->
   cleanWord "cake," = "cake,") /\
  (cleanWord "cake," = EmptyString <->
   forall c, In c (chars "cake,") -> is_mark c = true).
Proof.
  apply (clicked_word_is_bare "It's a piece of cake, really." "cake,").
  vm_compute. tauto.
Defined.

(** ** The image sent for analysis *)

(** [analyzeImageContext] sends what follows the comma of a data URL, and
    a text without comma, such as bare base64, as it is.  It never sends
    an empty text for a text that is not empty: when nothing follows the
    first comma, it sends the whole text. *)
Theorem inline_image_data_strips_the_prefix :
  (forall base64Image,
     ~ In ","%char (chars base64Image) ->
     inline_image_data base64Image = base64Image) /\
  (forall prefix payload,
     ~ In ","%char (chars prefix) -> ~ In ","%char (chars payload) ->
     payload <> EmptyString ->
     inline_image_data (String.append prefix (String "," payload)) = payload) /\
  (forall base64Image,
     inline_image_data base64Image = EmptyString ->
     base64Image = EmptyString).
Proof.
  split; [|split].
  - intros s Hs. unfold inline_image_data. now rewrite split_without.
  - intros prefix payload Hp Hq Hne. unfold inline_image_data.
    rewrite split_at_first by assumption.
    rewrite split_without by assumption. cbn [nth_error].
    destruct (String.eqb payload "") eqn:E; [|reflexivity].
    apply String.eqb_eq in E. contradiction.
  - intros s. unfold inline_image_data.
    destruct (nth_error (split ","%char s) 1) as [part|]; [|tauto].
    destruct (String.eqb part "") eqn:E; [tauto|].
    intros ->. discriminate.
Qed.

Lemma inline_image_data_strips_the_prefix_witness :
  inline_image_data "data:image/png;base64,iVBORw0KGgo=" = "iVBORw0KGgo=" /\
  inline_image_data "iVBORw0KGgo=" = "iVBORw0KGgo=".
Proof.
  split.
  - apply (proj1 (proj2 inline_image_data_strips_the_prefix)
             "data:image/png;base64" "iVBORw0KGgo=").
    + vm_compute. intuition discriminate.
    + vm_compute. intuition discriminate.
    + discriminate.
  - apply (proj1 inline_image_data_strips_the_prefix "iVBORw0KGgo=").
    vm_compute. intuition discriminate.
Defined.

(** ** The visual anchor *)

Lemma first_inline_image_empty parts :
  first_inline_image parts = EmptyString <->
  Forall (fun p => Part.inlineData p = None) parts.
Proof.
  induction parts as [|p parts IH]; cbn [first_inline_image].
  - split; [constructor | reflexivity].
  - destruct (Part.inlineData p) as [b|] eqn:E.
    + split; [discriminate|]. intros H. inversion H; subst. congruence.
    + rewrite IH. split; [now constructor | intros H; now inversion H].
Qed.

(** [generateVisualAnchor] answers with the empty text exactly when the
    image service sent no part with inline data, or no parts at all;
    otherwise with a PNG data URL of the first part that carries inline
    data, later parts being ignored. *)
Theorem visual_anchor_is_the_first_inline_image :
  (forall parts,
     generateVisualAnchor parts = EmptyString <->
     (forall ps, parts = Some ps ->
        Forall (fun p => Part.inlineData p = None) ps)) /\
  (forall before part b d after,
     Forall (fun p => Part.inlineData p = None) before ->
     Part.inlineData part = Some b -> Part.data b = Some d ->
     generateVisualAnchor (Some (before ++ part :: after)) =
     String.append "data:image/png;base64," d).
Proof.
  split.
  - intros [ps|]; unfold generateVisualAnchor.
    + rewrite first_inline_image_empty. split.
      * now intros H ps' [= <-].
      * intros H. now apply H.
    + split; [discriminate | reflexivity].
  - intros before part b d after Hnone Hb Hd. unfold generateVisualAnchor.
    induction Hnone as [|p before Hp _ IH]; cbn [app first_inline_image].
    + now rewrite Hb, Hd.
    + now rewrite Hp.
Qed.

Lemma visual_anchor_is_the_first_inline_image_witness :
  generateVisualAnchor
    (Some ([ {| Part.inlineData := None |} ] ++
           {| Part.inlineData := Some {| Part.data := Some "AAAA" |} |} ::
           [ {| Part.inlineData := Some {| Part.data := Some "BBBB" |} |} ])) =
  String.append "data:image/png;base64," "AAAA".
Proof.
  apply (proj2 visual_anchor_is_the_first_inline_image
           [ {| Part.inlineData := None |} ]
           {| Part.inlineData := Some {| Part.data := Some "AAAA" |} |}
           {| Part.data := Some "AAAA" |} "AAAA").
  - repeat constructor.
  - reflexivity.
  - reflexivity.
Defined.

(** ** The index of the subtitle on screen *)

Lemma handleProgress_range
    (number : Type) (number_le : number -> number -> bool)
    (timeToSeconds : string -> number) subs idx playedSeconds :
  subs <> [] ->
  0 <= handleProgress number number_le timeToSeconds subs idx playedSeconds
    < Z.of_nat (List.length subs).
Proof.
  destruct subs as [|s rest]; [congruence|]. intros _.
  rewrite handleProgress_best.
  destruct (best_index_spec number number_le timeToSeconds (s :: rest)
              0 0 playedSeconds) as (before & after & Heq & _ & _ & ->).
  apply (f_equal (@List.length _)) in Heq. rewrite length_app in Heq.
  cbn [List.length] in Heq.
  destruct before; cbn [List.length] in *; lia.
Qed.

Lemma navigation_range idx len :
  0 <= idx -> 0 < len ->
  0 <= next_index idx len < len /\ 0 <= previous_index idx len < len.
Proof.
  intros Hc Hl. unfold next_index, previous_index.
  rewrite !Z.rem_mod_nonneg by lia.
  split; apply Z.mod_pos_bound; lia.
Qed.

Section VideoTabFacts.

Variable number : Type.
Variable number_le : number -> number -> bool.
Variable timeToSeconds : string -> number.

Local Notation "'step'" := (video_step number number_le timeToSeconds).

(** No event makes the index negative. *)
Lemma video_step_nonneg st e :
  0 <= currentSubIndex st -> 0 <= currentSubIndex (step st e).
Proof.
  intros H0. unfold video_step.
  destruct e as [|answer| | |t| | |i]; cbn [currentSubIndex]; try lia.
  - destruct (videoSubtitles st) as [|s rest] eqn:E; [exact H0|].
    apply handleProgress_range. discriminate.
  - destruct (videoSubtitles st) as [|s rest] eqn:E; [exact H0|].
    cbn [currentSubIndex]. apply navigation_range; [assumption|].
    cbn [List.length]. lia.
  - destruct (videoSubtitles st) as [|s rest] eqn:E; [exact H0|].
    cbn [currentSubIndex]. apply navigation_range; [assumption|].
    cbn [List.length]. lia.
  - destruct (i <? _)%nat; cbn [currentSubIndex]; lia.
Qed.

(** Every event but a failed analysis keeps the index on a segment. *)
Lemma video_step_in_range st e :
  videoSubtitles st = [] \/ shows_a_segment st ->
  not_a_failure number e ->
  videoSubtitles (step st e) = [] \/ shows_a_segment (step st e).
Proof.
  intros Hinv Hok. unfold video_step, shows_a_segment in *.
  destruct e as [|answer| | |t| | |i]; cbn [videoSubtitles currentSubIndex].
  - now left.
  - destruct answer as [|s rest]; [now left|]. right. cbn [List.length]. lia.
  - destruct Hok.
  - now left.
  - destruct (videoSubtitles st) as [|s rest] eqn:E; [now left|]. right.
    apply handleProgress_range. discriminate.
  - destruct (videoSubtitles st) as [|s rest] eqn:E; [now left|]. right.
    cbn [videoSubtitles currentSubIndex].
    destruct Hinv as [Hnil|Hin]; [discriminate|].
    apply navigation_range; cbn [List.length] in *; lia.
  - destruct (videoSubtitles st) as [|s rest] eqn:E; [now left|]. right.
    cbn [videoSubtitles currentSubIndex].
    destruct Hinv as [Hnil|Hin]; [discriminate|].
    apply navigation_range; cbn [List.length] in *; lia.
  - destruct (i <? List.length (videoSubtitles st))%nat eqn:E;
      [|exact Hinv].
    right. cbn [videoSubtitles currentSubIndex].
    apply Nat.ltb_lt in E. lia.
Qed.

End VideoTabFacts.

(** As long as no analysis fails, the overlay always has a segment to
    show: after any sequence of analyses, closings, progress reports and
    clicks, either there are no segments or [currentSubIndex] is the
    index of one. *)
Theorem subtitle_index_shows_a_segment_unless_analysis_failed
    (number : Type) (number_le : number -> number -> bool)
    (timeToSeconds : string -> number) events :
  Forall (not_a_failure number) events ->
  videoSubtitles
    (video_run number number_le timeToSeconds initial_video_tab events) = [] \/
  shows_a_segment
    (video_run number number_le timeToSeconds initial_video_tab events).
Proof.
  intros Hok. unfold video_run.
  assert (H0 : videoSubtitles initial_video_tab = [] \/
               shows_a_segment initial_video_tab) by now left.
  revert H0. generalize initial_video_tab as st.
  induction Hok as [|e events He _ IH]; intros st Hst; [exact Hst|].
  cbn [fold_left]. apply IH. now apply video_step_in_range.
Qed.

Lemma subtitle_index_shows_a_segment_unless_analysis_failed_witness :
  videoSubtitles
    (video_run Z Z.leb lesson_seconds initial_video_tab
       [AnalysisStarted Z; AnalysisSucceeded Z lesson; Played Z 13;
        NextClicked Z; NextClicked Z]) = [] \/
  shows_a_segment
    (video_run Z Z.leb lesson_seconds initial_video_tab
       [AnalysisStarted Z; AnalysisSucceeded Z lesson; Played Z 13;
        NextClicked Z; NextClicked Z]).
Proof.
  apply (subtitle_index_shows_a_segment_unless_analysis_failed
           Z Z.leb lesson_seconds).
  repeat constructor.
Defined.

(** A failed analysis installs the three fallback segments and keeps the
    index of the previous video, which may lie beyond them: the overlay
    then has no segment to show.  The index is never negative, though, so
    that the next progress report of the player, or a click on previous or
    next, puts it back on a segment. *)
Theorem subtitle_index_is_repaired_after_a_failed_analysis
    (number : Type) (number_le : number -> number -> bool)
    (timeToSeconds : string -> number) :
  (exists events,
     let st := video_run number number_le timeToSeconds initial_video_tab
                 events in
     videoSubtitles st = lesson /\ ~ shows_a_segment st) /\
  (forall events,
     let st := video_run number number_le timeToSeconds initial_video_tab
                 events in
     0 <= currentSubIndex st /\
     (videoSubtitles st <> [] ->
      (forall playedSeconds,
         shows_a_segment
           (video_step number number_le timeToSeconds st
              (Played number playedSeconds))) /\
      shows_a_segment
        (video_step number number_le timeToSeconds st (NextClicked number)) /\
      shows_a_segment
        (video_step number number_le timeToSeconds st
           (PreviousClicked number)))).
Proof.
  split.
  - exists [AnalysisStarted number;
            AnalysisSucceeded number (lesson ++ lesson);
            SegmentClicked number 4; Closed number;
            AnalysisStarted number; AnalysisFailed number].
    cbn. split; [reflexivity|]. unfold shows_a_segment. cbn. lia.
  - intros events st.
    assert (H0 : 0 <= currentSubIndex st).
    { subst st. unfold video_run.
      assert (H : 0 <= currentSubIndex initial_video_tab) by (cbn; lia).
      revert H. generalize initial_video_tab as s0.
      induction events as [|e events IH]; intros s0 H; [exact H|].
      cbn [fold_left]. apply IH. now apply video_step_nonneg. }
    split; [exact H0|]. intros Hne.
    unfold shows_a_segment, video_step.
    destruct (videoSubtitles st) as [|s rest] eqn:E; [congruence|].
    cbn [videoSubtitles currentSubIndex]. split; [|split].
    + intros t. apply handleProgress_range. discriminate.
    + apply navigation_range; cbn [List.length]; lia.
    + apply navigation_range; cbn [List.length]; lia.
Qed.

Lemma subtitle_index_is_repaired_after_a_failed_analysis_witness :
  ~ shows_a_segment
      (video_run Z Z.leb lesson_seconds initial_video_tab
         [AnalysisStarted Z; AnalysisSucceeded Z (lesson ++ lesson);
          SegmentClicked Z 4; Closed Z; AnalysisStarted Z; AnalysisFailed Z]) /\
  shows_a_segment
    (video_step Z Z.leb lesson_seconds
       (video_run Z Z.leb lesson_seconds initial_video_tab
          [AnalysisStarted Z; AnalysisSucceeded Z (lesson ++ lesson);
           SegmentClicked Z 4; Closed Z; AnalysisStarted Z; AnalysisFailed Z])
       (NextClicked Z)).
Proof.
  split.
  - unfold shows_a_segment. cbn. lia.
  - destruct (proj2 (subtitle_index_is_repaired_after_a_failed_analysis
                       Z Z.leb lesson_seconds)
                [AnalysisStarted Z; AnalysisSucceeded Z (lesson ++ lesson);
                 SegmentClicked Z 4; Closed Z; AnalysisStarted Z; AnalysisFailed Z]) as [_ H].
    apply H. discriminate.
Defined.
